(** * The filter-state engine of filter-cat

    A shallow embedding of [src/filter-cat.ts] (class [FilterCat]): the
    criterion snapshot read from the controls, the match evaluator, the URL
    codec, the heading count aggregation and the recompute cycle with its
    reentrancy guard.

    Conventions of the embedding.
    - A JavaScript string is a [string]; a character is read as a code unit
      below 256.  The built-in string methods the class calls ([replace],
      [split], [join], [trim], [startsWith], [substring]) are written out
      below with their ECMAScript behaviour.
    - A JavaScript [Map] is an association list in insertion order; [mapSet]
      is [Map.prototype.set].
    - A DOM element is the record of the properties the class reads and
      writes.  [dataset] numbers are kept as numbers: the class only stores
      [String(n)] and reads it back with [parseInt].
    - Arrays that hold element references ([hs] in [countUpItems]) hold
      indices into the child list, so that an update through the reference
      is an update of the shared child. *)

From Stdlib Require Import String Ascii List ZArith Lia Bool.
From stdpp Require Import base list strings.
Import ListNotations.
Open Scope string_scope.
Open Scope list_scope.

(* ================================================================== *)
(** * Part I: definitions                                              *)
(* ================================================================== *)

(** ** JavaScript string primitives *)

(** [s.startsWith(p)], through the remainder after the prefix. *)
Fixpoint stripPrefix (p s : string) : option string :=
  match p with
  | EmptyString => Some s
  | String a p' =>
      match s with
      | EmptyString => None
      | String b s' => if Ascii.eqb a b then stripPrefix p' s' else None
      end
  end.

Definition startsWith (p s : string) : bool :=
  match stripPrefix p s with Some _ => true | None => false end.

(** [s.substring(1)]. *)
Definition substring1 (s : string) : string :=
  match s with
  | EmptyString => EmptyString
  | String _ t => t
  end.

(** [GetSubstitution] of ECMAScript for a string pattern (no captures):
    in the replacement text, [$$] stands for [$], [$&] for the matched
    text, [$`] for the text before the match and [$'] for the text after
    it; every other character, a lone [$] included, stands for itself. *)
Fixpoint getSubstitution (matched before after templ : string) : string :=
  match templ with
  | EmptyString => EmptyString
  | String a r =>
      if Ascii.eqb a "$" then
        match r with
        | String c t =>
            if Ascii.eqb c "$" then String "$" (getSubstitution matched before after t)
            else if Ascii.eqb c "&" then matched +:+ getSubstitution matched before after t
            else if Ascii.eqb c "`" then before +:+ getSubstitution matched before after t
            else if Ascii.eqb c "'" then after +:+ getSubstitution matched before after t
            else String a (getSubstitution matched before after r)
        | EmptyString => String a EmptyString
        end
      else String a (getSubstitution matched before after r)
  end.

(** [s.replace(pat, repl)] with a string pattern: only the first occurrence
    of [pat] is replaced.  [pre] is the part of the subject already passed. *)
Fixpoint jsReplaceFrom (pre pat repl s : string) : string :=
  match stripPrefix pat s with
  | Some post => pre +:+ getSubstitution pat pre post repl +:+ post
  | None =>
      match s with
      | EmptyString => pre
      | String a s' => jsReplaceFrom (pre +:+ String a EmptyString) pat repl s'
      end
  end.

Definition jsReplace (pat repl s : string) : string :=
  jsReplaceFrom EmptyString pat repl s.

(** [s.split(c)] for a one-character separator: never the empty array. *)
Fixpoint split (c : ascii) (s : string) : list string :=
  match s with
  | EmptyString => [EmptyString]
  | String a s' =>
      if Ascii.eqb a c then EmptyString :: split c s'
      else match split c s' with
           | h :: t => String a h :: t
           | [] => [String a EmptyString]
           end
  end.

(** [a.join(sep)]. *)
Definition join (sep : string) (a : list string) : string := String.concat sep a.

(** White space and line terminators of ECMAScript below code 256. *)
Definition isWhiteSpace (c : ascii) : bool :=
  let n := nat_of_ascii c in
  ((n =? 9) || (n =? 10) || (n =? 11) || (n =? 12) || (n =? 13) || (n =? 32)
   || (n =? 160))%nat.

Fixpoint trimStart (s : string) : string :=
  match s with
  | EmptyString => EmptyString
  | String a s' => if isWhiteSpace a then trimStart s' else s
  end.

Fixpoint trimEnd (s : string) : string :=
  match s with
  | EmptyString => EmptyString
  | String a s' =>
      match trimEnd s' with
      | EmptyString => if isWhiteSpace a then EmptyString else String a EmptyString
      | r => String a r
      end
  end.

(** [s.trim()]. *)
Definition trim (s : string) : string := trimEnd (trimStart s).

(** ** JavaScript [Map] in insertion order *)

Fixpoint mapSet {V : Type} (key : string) (v : V) (m : list (string * V)) : list (string * V) :=
  match m with
  | [] => [(key, v)]
  | (k, w) :: rest =>
      if String.eqb k key then (k, v) :: rest else (k, w) :: mapSet key v rest
  end.

Fixpoint mapGet {V : Type} (key : string) (m : list (string * V)) : option V :=
  match m with
  | [] => None
  | (k, w) :: rest => if String.eqb k key then Some w else mapGet key rest
  end.

Definition mapHas {V : Type} (key : string) (m : list (string * V)) : bool :=
  match mapGet key m with Some _ => true | None => false end.

(** ** Data model *)

(** ['or' | 'and'] *)
Inductive Combine : Type := OR | AND.

Definition isOr (oa : Combine) : bool :=
  match oa with OR => true | AND => false end.

(** An entry [[oa, vs, cls, qvar]] of [KeyToVals]. *)
Record Vals : Type := mkVals {
  v_oa : Combine;
  v_vs : list string;
  v_cls : string;
  v_qvar : string
}.

Definition KeyToVals : Type := list (string * Vals).

(** The properties of an [HTMLInputElement] the class touches. *)
Record Input : Type := mkInput {
  value : string;
  checked : bool
}.

Definition setValue (v : string) (e : Input) : Input :=
  {| value := v; checked := checked e |}.

Definition setChecked (b : bool) (e : Input) : Input :=
  {| value := value e; checked := b |}.

(** ['select' | 'checkbox'] *)
Inductive UiType : Type := select | checkbox.

(** [[HTMLInputElement, HTMLInputElement|null, HTMLInputElement[]|null]]:
    [[sel, null, null]] for a select, [[ena, rel, cbs]] for a check box
    group, where [querySelector] may have found no [ena] and no [rel]. *)
Definition Es : Type := (option Input * option Input * option (list Input))%type.

(** An entry [[cls, qvar, type, es]] of [#keyToUis]. *)
Record Ui : Type := mkUi {
  u_cls : string;
  u_qvar : string;
  u_type : UiType;
  u_es : Es
}.

Definition KeyToUis : Type := list (string * Ui).

(** A list item: its class tokens and its [hidden] attribute. *)
Record Item : Type := mkItem {
  classList : list string;
  li_hidden : bool
}.

(** A child of the list element: a heading with [dataset.depth],
    [dataset.count] and its [hidden] attribute, or a list block ([OL],
    [UL]) with its items and [dataset.count]. The list element holds
    headings and list blocks only, the structure the class is written
    for. *)
Inductive Child : Type :=
| Heading (depth : Z) (count : nat) (hidden : bool)
| ListBlock (items : list Item) (count : nat).

(** [document.location] *)
Record Location : Type := mkLocation {
  origin : string;
  pathname : string;
  search : string;
  hash : string
}.

(** ** Match evaluator *)

(** [li.classList.contains(c)] *)
Definition contains (li : Item) (c : string) : bool :=
  existsb (String.eqb c) (classList li).

(** [cls.replace('%value%', v).replace('_', '-')] *)
Definition classOf (cls v : string) : string :=
  jsReplace "_" "-" (jsReplace "%value%" v cls).

Fixpoint isMatchOneOr (li : Item) (vs : list string) (cls : string) : bool :=
  match vs with
  | [] => false
  | v :: vs' =>
      let c := classOf cls v in
      if contains li c then true else isMatchOneOr li vs' cls
  end.

Fixpoint isMatchOneAnd (li : Item) (vs : list string) (cls : string) : bool :=
  match vs with
  | [] => true
  | v :: vs' =>
      let c := classOf cls v in
      if negb (contains li c) then false else isMatchOneAnd li vs' cls
  end.

Definition isMatchOne (li : Item) (vs : list string) (cls : string) (isOr : bool) : bool :=
  if isOr then isMatchOneOr li vs cls else isMatchOneAnd li vs cls.

Fixpoint isMatch (li : Item) (keyToVals : KeyToVals) : bool :=
  match keyToVals with
  | [] => true
  | (_, e) :: rest =>
      if negb (isMatchOne li (v_vs e) (v_cls e) (isOr (v_oa e))) then false
      else isMatch li rest
  end.

(** ** Control binder *)

Fixpoint isCheckedAtLeastOne (cbs : list Input) : bool :=
  match cbs with
  | [] => false
  | cb :: rest => if checked cb then true else isCheckedAtLeastOne rest
  end.

Fixpoint isCheckedAll (cbs : list Input) : bool :=
  match cbs with
  | [] => true
  | cb :: rest => if negb (checked cb) then false else isCheckedAll rest
  end.

Fixpoint getCheckedVals (cbs : list Input) : list string :=
  match cbs with
  | [] => []
  | cb :: rest => if checked cb then value cb :: getCheckedVals rest else getCheckedVals rest
  end.

(** One turn of the loop of [#getKeyToVals]. *)
Definition getKeyToValsStep (kvs : KeyToVals) (entry : string * Ui) : KeyToVals :=
  let '(key, ui) := entry in
  match u_type ui with
  | select =>
      match u_es ui with
      | (Some sel, _, _) =>
          if negb (String.eqb EmptyString (value sel))
          then mapSet key (mkVals OR [value sel] (u_cls ui) (u_qvar ui)) kvs
          else kvs
      | _ => kvs
      end
  | checkbox =>
      match u_es ui with
      | (Some ena, Some rel, Some cbs) =>
          if checked ena then
            let oa := if checked rel then AND else OR in
            mapSet key (mkVals oa (getCheckedVals cbs) (u_cls ui) (u_qvar ui)) kvs
          else kvs
      | _ => kvs
      end
  end.

Definition getKeyToVals (keyToUis : KeyToUis) : KeyToVals :=
  fold_left getKeyToValsStep keyToUis [].

(** The listener of the enabled-toggle, up to its call of [#update]. *)
Definition enaListener (ena : Input) (cbs : list Input) : list Input :=
  let cbs1 :=
    if checked ena && negb (isCheckedAtLeastOne cbs)
    then map (setChecked true) cbs else cbs in
  if negb (checked ena) && isCheckedAll cbs1
  then map (setChecked false) cbs1 else cbs1.

(** The listener of a value-toggle, up to its call of [#update]. *)
Definition cbListener (ena : Input) (cbs : list Input) : Input :=
  setChecked (isCheckedAtLeastOne cbs) ena.

Definition toggle (e : Input) : Input := setChecked (negb (checked e)) e.

(** A user's click on the enabled-toggle: the browser flips the box, then
    runs the listener. *)
Definition clickEna (g : Input * list Input) : Input * list Input :=
  let '(ena, cbs) := g in
  let ena' := toggle ena in
  (ena', enaListener ena' cbs).

(** A user's click on the value-toggle at index [i]. *)
Definition clickCb (i : nat) (g : Input * list Input) : Input * list Input :=
  let '(ena, cbs) := g in
  let cbs' := alter toggle i cbs in
  (cbListener ena cbs', cbs').

(** ** URL codec *)

(** [const rs = { or: '', and: '.' }] *)
Definition rs (oa : Combine) : string :=
  match oa with OR => EmptyString | AND => "." end.

(** One turn of the loop of [#setUrlParams]: [ps.push(...)] when
    [vs.length] is not zero. *)
Definition setUrlParamsStep (ps : list string) (entry : string * Vals) : list string :=
  let '(_, e) := entry in
  if (0 <? length (v_vs e))%nat
  then ps ++ [v_qvar e +:+ "=" +:+ rs (v_oa e) +:+ join "," (v_vs e)]
  else ps.

Definition urlPairs (keyToVals : KeyToVals) : list string :=
  fold_left setUrlParamsStep keyToVals [].

(** The URL that [#setUrlParams] hands to [history.replaceState]. *)
Definition setUrlParams (location : Location) (keyToVals : KeyToVals) : string :=
  let ps := urlPairs keyToVals in
  let url :=
    if (0 <? length ps)%nat then "?" +:+ join "&" ps
    else origin location +:+ pathname location in
  url +:+ hash location.

(** The query component of the URL installed by [#setUrlParams], as
    [document.location.search] gives it afterwards (the query ends at the
    first [#], which the pairs are assumed not to contain). *)
Definition encodedSearch (keyToVals : KeyToVals) : string :=
  let ps := urlPairs keyToVals in
  if (0 <? length ps)%nat then "?" +:+ join "&" ps else EmptyString.

(** [new URLSearchParams(init)]: the [application/x-www-form-urlencoded]
    parser. A [+] is a space; [%XX] is the byte [XX] (the bytes are then
    read as UTF-8, which is the identity below 128). *)
Definition hexVal (c : ascii) : option nat :=
  let n := nat_of_ascii c in
  if ((48 <=? n) && (n <=? 57))%nat then Some (n - 48)
  else if ((65 <=? n) && (n <=? 70))%nat then Some (n - 55)
  else if ((97 <=? n) && (n <=? 102))%nat then Some (n - 87)
  else None.

Fixpoint plusToSpace (s : string) : string :=
  match s with
  | EmptyString => EmptyString
  | String a s' => String (if Ascii.eqb a "+" then " "%char else a) (plusToSpace s')
  end.

Fixpoint percentDecode (s : string) : string :=
  match s with
  | EmptyString => EmptyString
  | String a r =>
      if Ascii.eqb a "%" then
        match r with
        | String h (String l t) =>
            match hexVal h, hexVal l with
            | Some x, Some y => String (ascii_of_nat (16 * x + y)) (percentDecode t)
            | _, _ => String a (percentDecode r)
            end
        | _ => String a (percentDecode r)
        end
      else String a (percentDecode r)
  end.

Definition urlDecode (s : string) : string := percentDecode (plusToSpace s).

(** The name before the first [c] and the value after it. *)
Fixpoint splitFirst (c : ascii) (s : string) : string * string :=
  match s with
  | EmptyString => (EmptyString, EmptyString)
  | String a s' =>
      if Ascii.eqb a c then (EmptyString, s')
      else let '(n, v) := splitFirst c s' in (String a n, v)
  end.

Definition parseUrlencoded (q : string) : list (string * string) :=
  flat_map
    (fun piece =>
       if String.eqb piece EmptyString then []
       else let '(n, v) := splitFirst "=" piece in [(urlDecode n, urlDecode v)])
    (split "&" q).

Definition URLSearchParams (init : string) : list (string * string) :=
  parseUrlencoded
    (match init with
     | String a r => if Ascii.eqb a "?" then r else init
     | EmptyString => init
     end).

(** The entry with its elements in a new state. *)
Definition setEs (es : Es) (ui : Ui) : Ui :=
  mkUi (u_cls ui) (u_qvar ui) (u_type ui) es.

(** The body of the loop of [#getStateFromUrlParams] for one entry whose
    [qvar] the URL has, [v0] being [usp.get(qvar)]. The selector of a
    select entry is never [null] ([#initFilter] stores a select entry only
    when it found the selector); the assignment [sel.value = v] stores
    [v] (in a select element, when [v] is the value of one of its
    options). *)
Definition applyUrlParam (v0 : string) (ui : Ui) : Ui :=
  let '(v, oa) := if startsWith "." v0 then (substring1 v0, AND) else (v0, OR) in
  match u_type ui with
  | select =>
      match u_es ui with
      | (Some sel, rel, cbs) =>
          setEs (Some (setValue v sel), rel, cbs) ui
      | _ => ui
      end
  | checkbox =>
      let '(ena, rel, cbs) := u_es ui in
      let ena' := option_map (setChecked true) ena in
      let rel' := option_map (setChecked (negb (isOr oa))) rel in
      let cbs' :=
        option_map
          (fun cbs =>
             let vs := map trim (split "," v) in
             map (fun cb => setChecked (existsb (String.eqb (value cb)) vs) cb) cbs)
          cbs in
      setEs (ena', rel', cbs') ui
  end.

Definition getStateFromUrlParams (usp : list (string * string)) (keyToUis : KeyToUis)
  : KeyToUis :=
  map (fun '(key, ui) =>
         match mapGet (u_qvar ui) usp with
         | Some v0 => (key, applyUrlParam v0 ui)
         | None => (key, ui)
         end)
      keyToUis.

(** ** Visibility aggregator *)

Definition setHidden (b : bool) (li : Item) : Item :=
  {| classList := classList li; li_hidden := b |}.

(** One turn of the inner loop of [#filterLists]. *)
Definition filterItem (keyToVals : KeyToVals) (acc : nat * list Item) (li : Item)
  : nat * list Item :=
  let '(count, done) := acc in
  if isMatch li keyToVals then (count + 1, done ++ [setHidden false li])
  else (count, done ++ [setHidden true li]).

Definition filterLists (keyToVals : KeyToVals) (children : list Child) : list Child :=
  map (fun e =>
         match e with
         | ListBlock items _ =>
             let '(count, items') := fold_left (filterItem keyToVals) items (0, []) in
             ListBlock items' count
         | Heading _ _ _ => e
         end)
      children.

(** First loop of [#countUpItems]: [dataset.count = '0'] on headings. *)
Definition resetCount (e : Child) : Child :=
  match e with
  | Heading d _ h => Heading d 0 h
  | ListBlock _ _ => e
  end.

(** [while (hs.length > 0) { ... }]: the stack [hs] has its top first. *)
Fixpoint popClosed (children : list Child) (hi : Z) (hs : list nat) : list nat :=
  match hs with
  | [] => []
  | l :: rest =>
      match children !! l with
      | Some (Heading dl _ _) =>
          if (hi >? dl)%Z then hs else popClosed children hi rest
      | _ => popClosed children hi rest
      end
  end.

(** The body of [for (const h of hs)] for one heading [h]. *)
Definition addCount (count : nat) (h : Child) : Child :=
  match h with
  | Heading d c _ => let sum := c + count in Heading d sum (sum =? 0)%nat
  | ListBlock _ _ => h
  end.

(** One turn of the second loop of [#countUpItems], at child [i]. *)
Definition countUpStep (st : list Child * list nat) (i : nat) : list Child * list nat :=
  let '(children, hs) := st in
  match children !! i with
  | Some (Heading hi _ _) => (children, i :: popClosed children hi hs)
  | Some (ListBlock _ count) =>
      (fold_left (fun cs h => alter (addCount count) h cs) (rev hs) children, hs)
  | None => st
  end.

Definition countUpItems (children : list Child) : list Child :=
  fst (fold_left countUpStep (seq 0 (length children)) (map resetCount children, [])).

(** ** Orchestrator *)

(** A filter instance. [location] is [document.location] as the class
    reads it: [search] at initialization, [origin], [pathname] and [hash]
    at every rewrite (a rewrite leaves these three as they are). [url] is
    the URL last handed to [history.replaceState]; [cycles] counts the
    recompute cycles run so far (a counter of the model, not a field of the
    class). [#fixListHeight] and [#freeListHeight] set and remove a [style]
    attribute within one cycle and are left out. *)
Record Instance : Type := mkInstance {
  keyToUis : KeyToUis;
  listElm : list Child;
  stopUpdate : bool;
  doInitializeByParams : bool;
  location : Location;
  url : option string;
  cycles : nat
}.



(** [#update] *)
Definition update (t : Instance) : Instance :=
  if stopUpdate t then t
  else
    let keyToVals := getKeyToVals (keyToUis t) in
    let children := countUpItems (filterLists keyToVals (listElm t)) in
    mkInstance (keyToUis t) children (stopUpdate t) (doInitializeByParams t) (location t)
      (Some (setUrlParams (location t) keyToVals)) (S (cycles t)).



Fixpoint mapAlter {V : Type} (f : V -> V) (key : string) (m : list (string * V))
  : list (string * V) :=
  match m with
  | [] => []
  | (k, w) :: rest =>
      if String.eqb k key then (k, f w) :: rest else (k, w) :: mapAlter f key rest
  end.




(** ** Predicates used in the statements *)

(** [noChar c s]: the character [c] does not occur in [s]. *)
Fixpoint noChar (c : ascii) (s : string) : bool :=
  match s with
  | EmptyString => true
  | String a s' => negb (Ascii.eqb a c) && noChar c s'
  end.

(** No occurrence of [pat] starts inside [p], when [p] is followed by [rest]. *)
Definition noStartIn (pat p rest : string) : Prop :=
  forall p1 a p2, p = p1 +:+ String a p2 -> stripPrefix pat (String a p2 +:+ rest) = None.

(** [pat] occurs nowhere in [s]. *)
Definition occursNot (pat s : string) : Prop :=
  forall s1 s2, s = s1 +:+ s2 -> stripPrefix pat s2 = None.

(** The replacement patterns of [replace]: a [$] followed by one of
    [$], [&], [`], [']. *)
Fixpoint hasDollarPattern (s : string) : bool :=
  match s with
  | EmptyString => false
  | String a r =>
      (Ascii.eqb a "$" &&
       match r with
       | String c _ =>
           Ascii.eqb c "$" || Ascii.eqb c "&" || Ascii.eqb c "`" || Ascii.eqb c "'"
       | EmptyString => false
       end)
      || hasDollarPattern r
  end.

(** What [#getKeyToVals] records for one entry of [#keyToUis], if anything. *)
Definition snapshotOf (ui : Ui) : option Vals :=
  match u_type ui, u_es ui with
  | select, (Some sel, _, _) =>
      if String.eqb EmptyString (value sel) then None
      else Some (mkVals OR [value sel] (u_cls ui) (u_qvar ui))
  | checkbox, (Some ena, Some rel, Some cbs) =>
      if checked ena
      then Some (mkVals (if checked rel then AND else OR) (getCheckedVals cbs)
                        (u_cls ui) (u_qvar ui))
      else None
  | _, _ => None
  end.

(** The keys of a [Map] are pairwise distinct. *)
Definition keysDistinct {V : Type} (m : list (string * V)) : Prop :=
  NoDup (map fst m).

(** The snapshot, entry by entry: the keys that record something, in the
    order of [#keyToUis]. *)
Fixpoint snapshots (keyToUis : KeyToUis) : KeyToVals :=
  match keyToUis with
  | [] => []
  | (key, ui) :: rest =>
      match snapshotOf ui with
      | Some e => (key, e) :: snapshots rest
      | None => snapshots rest
      end
  end.



(** A heading of depth [d] is closed by the next heading of equal or
    lesser depth. *)
Definition closes (d : Z) (e : Child) : bool :=
  match e with
  | Heading d' _ _ => (d' <=? d)%Z
  | ListBlock _ _ => false
  end.

(** The children that follow a heading of depth [d], up to the heading
    that closes it. *)
Fixpoint scope (d : Z) (es : list Child) : list Child :=
  match es with
  | [] => []
  | e :: rest => if closes d e then [] else e :: scope d rest
  end.

(** The sum of the counts of the list blocks among [es]. *)
Fixpoint listSum (es : list Child) : nat :=
  match es with
  | [] => 0
  | ListBlock _ c :: rest => c + listSum rest
  | Heading _ _ _ :: rest => listSum rest
  end.

(** Whether there is a list block among [es]. *)
Fixpoint hasList (es : list Child) : bool :=
  match es with
  | [] => false
  | ListBlock _ _ :: _ => true
  | Heading _ _ _ :: rest => hasList rest
  end.

(** A heading of depth [d], count [c] and attribute [h], after the
    children [tl] that follow it have been passed. *)
Definition aggregate (d : Z) (c : nat) (h : bool) (tl : list Child) : Child :=
  let s := scope d tl in
  Heading d (c + listSum s) (if hasList s then (c + listSum s =? 0)%nat else h).

Definition depthAt (store : list Child) (j : nat) : option Z :=
  match store !! j with
  | Some (Heading d _ _) => Some d
  | _ => None
  end.

(** The stack of open headings: every entry is a heading, deeper than all
    the entries below it. *)
Inductive stackOk (store : list Child) : list nat -> Prop :=
| stackOk_nil : stackOk store []
| stackOk_cons (j : nat) (d : Z) (rest : list nat) :
    depthAt store j = Some d ->
    (forall j', In j' rest -> exists d', depthAt store j' = Some d' /\ (d' < d)%Z) ->
    stackOk store rest ->
    stackOk store (j :: rest).






(** Two states of the controls of one key: the same binding and the same
    elements, whatever is selected or checked. *)
Definition sameElements (es0 es : Es) : Prop :=
  let '(a0, r0, c0) := es0 in
  let '(a, r, c) := es in
  (is_Some a0 <-> is_Some a) /\ (is_Some r0 <-> is_Some r)
  /\ option_map (map value) c0 = option_map (map value) c.

Definition sameBinding (x0 x : string * Ui) : Prop :=
  fst x0 = fst x
  /\ u_cls (snd x0) = u_cls (snd x) /\ u_qvar (snd x0) = u_qvar (snd x)
  /\ u_type (snd x0) = u_type (snd x)
  /\ sameElements (u_es (snd x0)) (u_es (snd x)).





(** ** Further predicates used in the statements *)

(** The number of items of a list block without the [hidden] attribute. *)
Definition visibleCount (items : list Item) : nat :=
  length (List.filter (fun li => negb (li_hidden li)) items).

(** A list block as [#filterLists] leaves it; a heading is left alone. *)
Definition filtered (keyToVals : KeyToVals) (e : Child) : Child :=
  match e with
  | ListBlock items _ =>
      ListBlock (map (fun li => setHidden (negb (isMatch li keyToVals)) li) items)
                (length (List.filter (fun li => isMatch li keyToVals) items))
  | Heading _ _ _ => e
  end.

(** A child without what [#countUpItems] writes: a heading keeps its depth
    only. *)
Definition skeleton (e : Child) : Child :=
  match e with
  | Heading d _ _ => Heading d 0 false
  | ListBlock _ _ => e
  end.

(** What [#countUpItems] leaves at child [m] of [children]. *)
Definition counted (children : list Child) (m : nat) : option Child :=
  match children !! m with
  | Some (Heading d c h) =>
      let s := scope d (drop (S m) children) in
      Some (Heading d (listSum s) (if hasList s then (listSum s =? 0)%nat else h))
  | other => other
  end.


(** ** Construction: options, discovery and bindings *)

From Stdlib Require Import DecimalString DecimalNat.

(** A value of the options object: [string | boolean]. *)
Inductive OptVal : Type :=
| OStr (s : string)
| OBool (b : bool).

(** The private configuration fields of the class. *)
Record Options : Type := mkOptions {
  o_selFilter : string;
  o_selList : string;
  o_selFilterKey : string;
  o_selFilterSelect : string;
  o_selFilterEnabled : string;
  o_selFilterRelation : string;
  o_selFilterValues : string;
  o_qvarBase : string;
  o_dsQvarBase : string;
  o_dsQvar : string;
  o_classBase : string;
  o_dsClassBase : string;
  o_dsKey : string;
  o_dsCount : string;
  o_dsDepth : string;
  o_doSetHeadingDepth : bool;
  o_doInitializeByParams : bool
}.

(** The field initializers. *)
Definition defaultOptions : Options :=
  mkOptions ".filter" ".list" ".filter-key" ".filter-select" ".filter-enabled"
    ".filter-relation" ".filter-values" "%key%" "qvar-base" "qvar" "%value%"
    "class-base" "key" "count" "depth" true true.

(** [if (typeof (opts[name] ?? null) === 'string') field = opts[name]] *)
Definition optStr (opts : list (string * OptVal)) (name : string) (field : string)
  : string :=
  match mapGet name opts with
  | Some (OStr s) => s
  | _ => field
  end.

(** [if (typeof (opts[name] ?? null) === 'boolean') field = opts[name]] *)
Definition optBool (opts : list (string * OptVal)) (name : string) (field : bool) : bool :=
  match mapGet name opts with
  | Some (OBool b) => b
  | _ => field
  end.

(** [#assignOptions] *)
Definition assignOptions (opts : list (string * OptVal)) (o : Options) : Options :=
  mkOptions
    (optStr opts "selFilter" (o_selFilter o))
    (optStr opts "selList" (o_selList o))
    (optStr opts "selFilterKey" (o_selFilterKey o))
    (optStr opts "selFilterSelect" (o_selFilterSelect o))
    (optStr opts "selFilterEnabled" (o_selFilterEnabled o))
    (optStr opts "selFilterRelation" (o_selFilterRelation o))
    (optStr opts "selFilterValues" (o_selFilterValues o))
    (optStr opts "qvarBase" (o_qvarBase o))
    (optStr opts "dsQvarBase" (o_dsQvarBase o))
    (optStr opts "dsQvar" (o_dsQvar o))
    (optStr opts "classBase" (o_classBase o))
    (optStr opts "dsClassBase" (o_dsClassBase o))
    (optStr opts "dsKey" (o_dsKey o))
    (optStr opts "dsCount" (o_dsCount o))
    (optStr opts "dsDepth" (o_dsDepth o))
    (optBool opts "doSetHeadingDepth" (o_doSetHeadingDepth o))
    (optBool opts "doInitializeByParams" (o_doInitializeByParams o)).

(** [String(n)] for a counter. *)
Definition decimal (n : nat) : string := NilEmpty.string_of_uint (Nat.to_uint n).

(** The loop of [constructAll] over the filter elements [fs] and the list
    elements [ls] that the two queries found, [idx] being the static
    counter: the identifiers given, each with the filter and the list it
    is set on and handed to the constructor with, and the counter
    afterwards. *)
Fixpoint constructAllLoop {F L : Type} (idx : nat) (fs : list F) (ls : list L)
  : list (string * F * L) * nat :=
  match fs with
  | [] => ([], idx)
  | f :: fs' =>
      match ls with
      | [] => ([], idx)
      | l :: ls' =>
          let id := "fl" +:+ decimal idx in
          let '(rest, idx') := constructAllLoop (S idx) fs' ls' in
          ((id, f, l) :: rest, idx')
      end
  end.

(** The selectors [constructAll] queries with. *)
Definition constructAllSelectors (opts : list (string * OptVal)) : string * string :=
  (optStr opts "selFilter" ".filter" +:+ ":not([for])",
   optStr opts "selList" ".list" +:+ ":not([id])").

(** [FilterCat.#nonEmpty]; a data map is read by property name. *)
Definition nonEmpty (arr : list (string * string)) (key : string) : option string :=
  let v := match mapGet key arr with Some v => v | None => EmptyString end in
  if (0 <? String.length v)%nat then Some v else None.

(** A filter key element: its [dataset] and what the queries for the
    selector, the enabled-toggle, the relation-toggle and the value-toggles
    find in it. *)
Record KeyElm : Type := mkKeyElm {
  k_dataset : list (string * string);
  k_select : option Input;
  k_enabled : option Input;
  k_relation : option Input;
  k_values : list Input
}.

(** The filter element: its [dataset], its filter key elements and its
    [hidden] attribute. *)
Record FilterRoot : Type := mkFilterRoot {
  r_dataset : list (string * string);
  r_keys : list KeyElm;
  r_hidden : bool
}.

(** One turn of the first loop of [#initFilter]. *)
Definition initFilterStep (o : Options) (qvarBase rClsBase : string)
    (keyToUis : KeyToUis) (e : KeyElm) : KeyToUis :=
  match mapGet (o_dsKey o) (k_dataset e) with
  | None => keyToUis
  | Some key =>
      if String.eqb key EmptyString then keyToUis
      else
        let qvar :=
          match nonEmpty (k_dataset e) (o_dsQvar o) with
          | Some q => q
          | None => jsReplace "%key%" key qvarBase
          end in
        let cls :=
          jsReplace "%key%" key
            (match nonEmpty (k_dataset e) (o_dsClassBase o) with
             | Some c => c
             | None => rClsBase
             end) in
        match k_select e with
        | Some sel => mapSet key (mkUi cls qvar select (Some sel, None, None)) keyToUis
        | None =>
            mapSet key
              (mkUi cls qvar checkbox (k_enabled e, k_relation e, Some (k_values e)))
              keyToUis
        end
  end.

(** The [#keyToUis] that [#initFilter] builds. *)
Definition buildKeyToUis (o : Options) (f : FilterRoot) : KeyToUis :=
  let qvarBase :=
    match nonEmpty (r_dataset f) (o_dsQvarBase o) with
    | Some q => q
    | None => o_qvarBase o
    end in
  let rClsBase :=
    match nonEmpty (r_dataset f) (o_dsClassBase o) with
    | Some c => c
    | None => o_classBase o
    end in
  fold_left (initFilterStep o qvarBase rClsBase) (r_keys f) [].

(** ** The children of the list element as the DOM has them *)

(** [tagName]: [H1] to [H6], [OL], [UL], another HTML element, or an
    element that is no [HTMLElement]. *)
Inductive Tag : Type :=
| TagHeading (rank : nat)
| TagOL
| TagUL
| TagOther
| TagForeign.

(** A child of the list element. [e_depth] is [dataset.depth]: [None]
    when it is missing or empty, else what [parseInt] makes of it, [None]
    standing for [NaN]. [e_count] is what [parseInt] makes of
    [dataset.count], [None] standing for [NaN], also when it is
    missing. The two data attributes are taken to have different names
    ([dsCount] and [dsDepth] differ, as they do by default). *)
Record Elem : Type := mkElem {
  e_tag : Tag;
  e_depth : option (option Z);
  e_count : option Z;
  e_hidden : bool;
  e_items : list Item
}.

Definition isHTMLElement (e : Elem) : bool :=
  match e_tag e with TagForeign => false | _ => true end.

Definition isListTag (e : Elem) : bool :=
  match e_tag e with TagOL | TagUL => true | _ => false end.

Definition setDepth (d : option (option Z)) (e : Elem) : Elem :=
  mkElem (e_tag e) d (e_count e) (e_hidden e) (e_items e).

Definition setCount (c : option Z) (e : Elem) : Elem :=
  mkElem (e_tag e) (e_depth e) c (e_hidden e) (e_items e).

(** [assignDepth] of [#initializeList] *)
Definition assignDepth (children : list Elem) : list Elem :=
  map (fun h =>
         match e_tag h with
         | TagHeading rank => setDepth (Some (Some (Z.of_nat rank - 1)%Z)) h
         | _ => h
         end)
      children.

(** [#initializeList] *)
Definition initializeList (o : Options) (children : list Elem) : list Elem :=
  if o_doSetHeadingDepth o then assignDepth children else children.

(** [#filterLists] *)
Definition rawFilterLists (keyToVals : KeyToVals) (children : list Elem) : list Elem :=
  map (fun e =>
         if isListTag e then
           let '(count, items') := fold_left (filterItem keyToVals) (e_items e) (0, []) in
           mkElem (e_tag e) (e_depth e) (Some (Z.of_nat count)) (e_hidden e) items'
         else e)
      children.

(** First loop of [#countUpItems]. *)
Definition rawResetCount (e : Elem) : Elem :=
  if isHTMLElement e then
    match e_depth e with
    | Some _ => setCount (Some 0%Z) e
    | None => e
    end
  else e.

(** [hi > parseInt(l.dataset.depth)], false when either is [NaN]. *)
Definition deeper (hi dl : option Z) : bool :=
  match hi, dl with
  | Some a, Some b => (a >? b)%Z
  | _, _ => false
  end.

Fixpoint rawPopClosed (children : list Elem) (hi : option Z) (hs : list nat) : list nat :=
  match hs with
  | [] => []
  | l :: rest =>
      match children !! l with
      | Some el =>
          if deeper hi (match e_depth el with Some dl => dl | None => None end)
          then hs else rawPopClosed children hi rest
      | None => rawPopClosed children hi rest
      end
  end.

(** [parseInt(h.dataset.count) + count] *)
Definition addNumbers (a b : option Z) : option Z :=
  match a, b with
  | Some x, Some y => Some (x + y)%Z
  | _, _ => None
  end.

(** [if (sum)]: neither zero nor [NaN]. *)
Definition truthy (sum : option Z) : bool :=
  match sum with
  | Some z => negb (z =? 0)%Z
  | None => false
  end.

(** The body of [for (const h of hs)]. *)
Definition rawAddCount (count : option Z) (h : Elem) : Elem :=
  let sum := addNumbers (e_count h) count in
  mkElem (e_tag h) (e_depth h) sum (negb (truthy sum)) (e_items h).

Definition rawCountUpStep (st : list Elem * list nat) (i : nat) : list Elem * list nat :=
  let '(children, hs) := st in
  match children !! i with
  | Some e =>
      if isHTMLElement e then
        match e_depth e with
        | Some hi => (children, i :: rawPopClosed children hi hs)
        | None =>
            (fold_left (fun cs h => alter (rawAddCount (e_count e)) h cs) (rev hs) children,
             hs)
        end
      else st
  | None => st
  end.

(** [#countUpItems] *)
Definition rawCountUpItems (children : list Elem) : list Elem :=
  fst (fold_left rawCountUpStep (seq 0 (length children))
         (map rawResetCount children, [])).

(** ** The instance from its construction on *)

Record FilterCat : Type := mkFilterCat {
  c_options : Options;
  c_keyToUis : KeyToUis;
  c_listElm : list Elem;
  c_stopUpdate : bool;
  c_location : Location;
  c_url : option string;
  c_filterHidden : bool
}.

(** [#update] *)
Definition rawUpdate (t : FilterCat) : FilterCat :=
  if c_stopUpdate t then t
  else
    let keyToVals := getKeyToVals (c_keyToUis t) in
    let children := rawCountUpItems (rawFilterLists keyToVals (c_listElm t)) in
    mkFilterCat (c_options t) (c_keyToUis t) children (c_stopUpdate t) (c_location t)
      (Some (setUrlParams (c_location t) keyToVals)) (c_filterHidden t).

(** [#initFilter]: the bindings are built, the state of the URL is written
    into the controls under the guard, and a recompute cycle is run.
    ([#assignAttributes] writes [id], [name] and [for] attributes only and
    is left out.) *)
Definition rawInitFilter (f : FilterRoot) (t : FilterCat) : FilterCat :=
  let t0 :=
    mkFilterCat (c_options t) (buildKeyToUis (c_options t) f) (c_listElm t)
      (c_stopUpdate t) (c_location t) (c_url t) (c_filterHidden t) in
  let t' :=
    if o_doInitializeByParams (c_options t0) then
      mkFilterCat (c_options t0)
        (getStateFromUrlParams (URLSearchParams (search (c_location t0))) (c_keyToUis t0))
        (c_listElm t0) false (c_location t0) (c_url t0) (c_filterHidden t0)
    else t0 in
  rawUpdate t'.

(** The constructor, given what the two queries for the roots find;
    [None] is [throw new Error()]. *)
Definition construct (opts : list (string * OptVal)) (f : option FilterRoot)
    (l : option (list Elem)) (location : Location) : option FilterCat :=
  let o := assignOptions opts defaultOptions in
  match f, l with
  | Some f, Some l =>
      let t := rawInitFilter f (mkFilterCat o [] l false location None (r_hidden f)) in
      Some (mkFilterCat (c_options t) (c_keyToUis t)
              (initializeList (c_options t) (c_listElm t))
              (c_stopUpdate t) (c_location t) (c_url t) false)
  | _, _ => None
  end.


(** The names of the options that set a string and of those that set a
    boolean. *)
Definition stringOptions : list string :=
  ["selFilter"; "selList"; "selFilterKey"; "selFilterSelect"; "selFilterEnabled";
   "selFilterRelation"; "selFilterValues"; "qvarBase"; "dsQvarBase"; "dsQvar";
   "classBase"; "dsClassBase"; "dsKey"; "dsCount"; "dsDepth"].

Definition booleanOptions : list string := ["doSetHeadingDepth"; "doInitializeByParams"].

(** The controls a filter key element is bound with. *)
Definition controlsOf (e : KeyElm) : UiType * Es :=
  match k_select e with
  | Some sel => (select, (Some sel, None, None))
  | None => (checkbox, (k_enabled e, k_relation e, Some (k_values e)))
  end.

(** The key of a filter key element, if it has one. *)
Definition keyOf (o : Options) (e : KeyElm) : option string :=
  match mapGet (o_dsKey o) (k_dataset e) with
  | Some key => if String.eqb key EmptyString then None else Some key
  | None => None
  end.

(** An entry as [#initFilter] stores it. *)
Definition wellFormed (ui : Ui) : Prop :=
  match u_type ui with
  | select => exists sel, u_es ui = (Some sel, None, None)
  | checkbox => exists ena rel cbs, u_es ui = (ena, rel, Some cbs)
  end.

(** The element has neither count nor depth and ends the count of every
    open heading. *)
Definition stray (e : Elem) : Prop :=
  isHTMLElement e = true /\ e_depth e = None /\ e_count e = None.


(** The count of the element is [NaN] and the element is hidden. *)
Definition uncounted (e : Elem) : Prop := e_count e = None /\ e_hidden e = true.

(** The second loop of [#countUpItems] is about to visit child [i] of
    [orig]: the open headings come before [i], and the children from [i]
    on are as the first loop left them. *)
Definition reached (orig : list Elem) (i : nat) (st : list Elem * list nat) : Prop :=
  (forall h, In h (snd st) -> h < i)
  /\ forall j, i <= j -> fst st !! j = map rawResetCount orig !! j.
(* ================================================================== *)
(** * Part II: properties                                              *)
(* ================================================================== *)

(** ** Strings *)

Lemma sapp_nil_l (s : string) : EmptyString +:+ s = s.
Proof. reflexivity. Qed.

Lemma sapp_cons (a : ascii) (s t : string) : String a s +:+ t = String a (s +:+ t).
Proof. reflexivity. Qed.

Lemma sapp_nil_r (s : string) : s +:+ EmptyString = s.
Proof. induction s as [|a s IH]; [reflexivity | now rewrite sapp_cons, IH]. Qed.

Lemma sapp_assoc (s t u : string) : (s +:+ t) +:+ u = s +:+ (t +:+ u).
Proof. induction s as [|a s IH]; [reflexivity | now rewrite !sapp_cons, IH]. Qed.

Create Rewrite HintDb str.
#[local] Hint Rewrite sapp_nil_l sapp_cons sapp_nil_r sapp_assoc : str.

Ltac ssimpl := autorewrite with str in *.

Lemma stripPrefix_app (p s : string) : stripPrefix p (p +:+ s) = Some s.
Proof.
  induction p as [|a p IH]; ssimpl; simpl; [reflexivity|].
  now rewrite Ascii.eqb_refl.
Qed.

Lemma stripPrefix_Some (p s r : string) : stripPrefix p s = Some r -> s = p +:+ r.
Proof.
  revert s; induction p as [|a p IH]; intros s H; simpl in *.
  - now injection H as ->.
  - destruct s as [|b s]; [discriminate|].
    destruct (Ascii.eqb_spec a b) as [->|]; [|discriminate].
    now rewrite (IH _ H).
Qed.

Lemma noChar_app (c : ascii) (s t : string) :
  noChar c (s +:+ t) = noChar c s && noChar c t.
Proof.
  induction s as [|a s IH]; ssimpl; simpl; [reflexivity|].
  now rewrite IH, andb_assoc.
Qed.

(** ** [String.prototype.replace] *)

Lemma jsReplaceFrom_eq (pre pat repl s : string) :
  jsReplaceFrom pre pat repl s =
  match stripPrefix pat s with
  | Some post => pre +:+ getSubstitution pat pre post repl +:+ post
  | None =>
      match s with
      | EmptyString => pre
      | String a s' => jsReplaceFrom (pre +:+ String a EmptyString) pat repl s'
      end
  end.
Proof. destruct s; reflexivity. Qed.

Lemma jsReplaceFrom_first (pat repl post p pre : string) :
  noStartIn pat p (pat +:+ post) ->
  jsReplaceFrom pre pat repl (p +:+ pat +:+ post) =
  (pre +:+ p) +:+ getSubstitution pat (pre +:+ p) post repl +:+ post.
Proof.
  revert pre; induction p as [|a p IH]; intros pre Hno.
  - rewrite sapp_nil_l, jsReplaceFrom_eq, stripPrefix_app. now rewrite sapp_nil_r.
  - rewrite jsReplaceFrom_eq.
    rewrite (Hno EmptyString a p eq_refl). rewrite sapp_cons.
    rewrite IH.
    + now ssimpl.
    + intros p1 b p2 E. apply (Hno (String a p1) b p2). now rewrite E.
Qed.

Lemma jsReplaceFrom_none (pat repl s pre : string) :
  occursNot pat s -> jsReplaceFrom pre pat repl s = pre +:+ s.
Proof.
  revert pre; induction s as [|a s IH]; intros pre Hno.
  - rewrite jsReplaceFrom_eq, (Hno EmptyString EmptyString eq_refl). now rewrite sapp_nil_r.
  - rewrite jsReplaceFrom_eq, (Hno EmptyString (String a s) eq_refl).
    rewrite IH; [now ssimpl|].
    intros s1 s2 E. apply (Hno (String a s1) s2). now rewrite E.
Qed.

Lemma getSubstitution_plain (m b a v : string) :
  hasDollarPattern v = false -> getSubstitution m b a v = v.
Proof.
  induction v as [|x r IH]; intros H; [reflexivity|].
  simpl in H. apply orb_false_iff in H as [H1 H2].
  specialize (IH H2).
  cbn [getSubstitution]. fold getSubstitution.
  destruct (Ascii.eqb x "$") eqn:Ex.
  - destruct r as [|c t]; [reflexivity|].
    simpl in H1.
    destruct (Ascii.eqb c "$"); [discriminate|].
    destruct (Ascii.eqb c "&"); [discriminate|].
    destruct (Ascii.eqb c "`"); [discriminate|].
    destruct (Ascii.eqb c "'"); [discriminate|].
    now rewrite IH.
  - now rewrite IH.
Qed.

Lemma noChar_noStartIn (c : ascii) (p rest : string) :
  noChar c p = true -> noStartIn (String c EmptyString) p rest.
Proof.
  intros H p1 a p2 ->.
  rewrite noChar_app in H. apply andb_prop in H as [_ H]. simpl in H.
  apply andb_prop in H as [H _]. rewrite sapp_cons. simpl.
  rewrite eqb_sym. now destruct (Ascii.eqb a c).
Qed.

Lemma noChar_occursNot (c : ascii) (s : string) :
  noChar c s = true -> occursNot (String c EmptyString) s.
Proof.
  intros H s1 s2 ->.
  rewrite noChar_app in H. apply andb_prop in H as [_ H].
  destruct s2 as [|a s2]; [reflexivity|]. simpl in *.
  apply andb_prop in H as [H _].
  rewrite eqb_sym. now destruct (Ascii.eqb a c).
Qed.

(** ** Match evaluator *)

Section MatchEvaluator.

Variable li : Item.

Lemma isMatchOneOr_iff (vs : list string) (cls : string) :
  isMatchOneOr li vs cls = true <->
  exists v, In v vs /\ contains li (classOf cls v) = true.
Proof.
  induction vs as [|v vs IH]; simpl.
  - split; [discriminate | intros (v & [] & _)].
  - destruct (contains li (classOf cls v)) eqn:E.
    + split; [intros _; exists v; auto | reflexivity].
    + rewrite IH. split.
      * intros (w & Hw & Hc). exists w; auto.
      * intros (w & [<- | Hw] & Hc); [congruence | exists w; auto].
Qed.

Lemma isMatchOneAnd_iff (vs : list string) (cls : string) :
  isMatchOneAnd li vs cls = true <->
  forall v, In v vs -> contains li (classOf cls v) = true.
Proof.
  induction vs as [|v vs IH]; simpl.
  - split; [intros _ v [] | reflexivity].
  - destruct (contains li (classOf cls v)) eqn:E; simpl.
    + rewrite IH. split.
      * intros H w [<- | Hw]; auto.
      * intros H w Hw; auto.
    + split; [discriminate | intros H; rewrite <- E; auto].
Qed.

Lemma isMatch_cons (key : string) (e : Vals) (rest : KeyToVals) :
  isMatch li ((key, e) :: rest) =
  isMatchOne li (v_vs e) (v_cls e) (isOr (v_oa e)) && isMatch li rest.
Proof. simpl. now destruct (isMatchOne _ _ _ _). Qed.

Lemma isMatch_app (kvs1 kvs2 : KeyToVals) :
  isMatch li (kvs1 ++ kvs2) = isMatch li kvs1 && isMatch li kvs2.
Proof.
  induction kvs1 as [|[key e] kvs1 IH]; [reflexivity|].
  rewrite <- app_comm_cons, !isMatch_cons, IH. now rewrite andb_assoc.
Qed.

Lemma isMatch_iff (keyToVals : KeyToVals) :
  isMatch li keyToVals = true <->
  forall key e, In (key, e) keyToVals ->
                isMatchOne li (v_vs e) (v_cls e) (isOr (v_oa e)) = true.
Proof.
  induction keyToVals as [|[k e] rest IH].
  - split; [intros _ key e [] | reflexivity].
  - rewrite isMatch_cons, andb_true_iff, IH. split.
    + intros [H1 H2] key e' [E | Hin]; [now inversion E; subst | eauto].
    + intros H. split; [apply (H k); now left | intros key e' Hin; apply (H key); now right].
Qed.



End MatchEvaluator.


(** ** Tag derivation *)

Lemma jsReplace_first (pat repl pre post : string) :
  noStartIn pat pre (pat +:+ post) ->
  jsReplace pat repl (pre +:+ pat +:+ post) =
  pre +:+ getSubstitution pat pre post repl +:+ post.
Proof. intros H. unfold jsReplace. now rewrite jsReplaceFrom_first. Qed.

Lemma jsReplace_none (pat repl s : string) :
  occursNot pat s -> jsReplace pat repl s = s.
Proof. intros H. unfold jsReplace. now rewrite jsReplaceFrom_none. Qed.

(** C10, as the code has it. For a value without a replacement pattern of
    [replace], the derived tag is the class pattern with the value put in
    place of the first [%value%] (no placeholder: the pattern itself) and
    then the first underscore of that string, and only the first, turned
    into a hyphen (no underscore: that string itself). *)
Theorem classOf_first_placeholder_first_underscore
    (cls v : string) (Hv : hasDollarPattern v = false) :
  let t := jsReplace "%value%" v cls in
  (forall pre post,
      cls = pre +:+ "%value%" +:+ post ->
      noStartIn "%value%" pre ("%value%" +:+ post) ->
      t = pre +:+ v +:+ post)
  /\ (occursNot "%value%" cls -> t = cls)
  /\ (forall a b,
         t = a +:+ "_" +:+ b -> noChar "_" a = true ->
         classOf cls v = a +:+ "-" +:+ b)
  /\ (noChar "_" t = true -> classOf cls v = t).
Proof.
  intros t. split; [|split; [|split]].
  - intros pre post -> Hno. unfold t.
    rewrite jsReplace_first by exact Hno.
    now rewrite getSubstitution_plain.
  - intros Hno. now apply jsReplace_none.
  - intros a b E Ha. unfold classOf. fold t. rewrite E.
    rewrite jsReplace_first by now apply noChar_noStartIn.
    reflexivity.
  - intros Hno. unfold classOf. fold t.
    apply jsReplace_none. now apply noChar_occursNot.
Qed.

Lemma classOf_first_placeholder_first_underscore_witness :
  classOf "cat_%value%" "my_val" = "cat-my_val".
Proof.
  destruct (classOf_first_placeholder_first_underscore "cat_%value%" "my_val" eq_refl)
    as (_ & _ & H & _).
  exact (H "cat" "my_val" eq_refl eq_refl).
Defined.

(** C10 fails as stated for a value that holds a replacement pattern: the
    value [a$$b] put into [tag-%value%] would give [tag-a$$b], the code
    derives [tag-a$b]. *)
Lemma classOf_dollar_pattern :
  classOf "tag-%value%" "a$$b" = "tag-a$b" /\ classOf "tag-%value%" "a$$b" <> "tag-a$$b".
Proof. split; [reflexivity | discriminate]. Qed.

(** ** Maps *)

Lemma mapSet_fresh {V : Type} (key : string) (v : V) (m : list (string * V)) :
  ~ In key (map fst m) -> mapSet key v m = m ++ [(key, v)].
Proof.
  induction m as [|[k w] m IH]; intros H; simpl in *; [reflexivity|].
  destruct (String.eqb_spec k key) as [->|Hne]; [tauto|].
  rewrite IH; tauto.
Qed.

Lemma mapGet_In {V : Type} (key : string) (v : V) (m : list (string * V)) :
  mapGet key m = Some v -> In (key, v) m.
Proof.
  induction m as [|[k w] m IH]; simpl; [discriminate|].
  destruct (String.eqb_spec k key) as [->|Hne].
  - intros [= ->]. now left.
  - intros H. right. auto.
Qed.

Lemma In_mapGet {V : Type} (key : string) (v : V) (m : list (string * V)) :
  keysDistinct m -> In (key, v) m -> mapGet key m = Some v.
Proof.
  unfold keysDistinct.
  induction m as [|[k w] m IH]; simpl; intros Hnd Hin; [contradiction|].
  apply NoDup_cons in Hnd as [Hk Hnd].
  destruct Hin as [[= -> ->] | Hin].
  - now rewrite String.eqb_refl.
  - destruct (String.eqb_spec k key) as [->|Hne]; [|auto].
    exfalso. apply Hk. apply list_elem_of_In. apply (in_map fst _ _ Hin).
Qed.

Lemma mapGet_None {V : Type} (key : string) (m : list (string * V)) :
  mapGet key m = None <-> ~ In key (map fst m).
Proof.
  induction m as [|[k w] m IH]; simpl; [tauto|].
  destruct (String.eqb_spec k key) as [->|Hne].
  - split; [discriminate | tauto].
  - rewrite IH. tauto.
Qed.

(** ** Reading the controls *)

Lemma getKeyToValsStep_eq (kvs : KeyToVals) (key : string) (ui : Ui) :
  getKeyToValsStep kvs (key, ui) =
  match snapshotOf ui with
  | Some e => mapSet key e kvs
  | None => kvs
  end.
Proof.
  unfold getKeyToValsStep, snapshotOf.
  destruct (u_type ui); destruct (u_es ui) as [[[a|] [b|]] [c|]]; try reflexivity;
    try (now destruct (String.eqb EmptyString (value a))).
  now destruct (checked a).
Qed.

Lemma snapshots_keys (keyToUis : KeyToUis) (key : string) :
  In key (map fst (snapshots keyToUis)) -> In key (map fst keyToUis).
Proof.
  induction keyToUis as [|[k ui] rest IH]; simpl; [tauto|].
  destruct (snapshotOf ui); simpl; tauto.
Qed.

Lemma getKeyToVals_fold (keyToUis : KeyToUis) (acc : KeyToVals) :
  keysDistinct keyToUis ->
  (forall key, In key (map fst acc) -> ~ In key (map fst keyToUis)) ->
  fold_left getKeyToValsStep keyToUis acc = acc ++ snapshots keyToUis.
Proof.
  unfold keysDistinct.
  revert acc; induction keyToUis as [|[k ui] rest IH]; intros acc Hnd Hdis;
    cbn [fold_left snapshots].
  - now rewrite app_nil_r.
  - simpl in Hnd. apply NoDup_cons in Hnd as [Hk Hnd].
    rewrite list_elem_of_In in Hk.
    rewrite getKeyToValsStep_eq.
    destruct (snapshotOf ui) as [e|].
    + rewrite mapSet_fresh.
      * rewrite IH; [now rewrite <- app_assoc | exact Hnd |].
        intros key Hin. rewrite map_app, in_app_iff in Hin. simpl in Hin.
        destruct Hin as [Hin | [<- | []]]; [|exact Hk].
        intros Hr. apply (Hdis key Hin). simpl. now right.
      * intros Hin. apply (Hdis k Hin). simpl. now left.
    + apply IH; [exact Hnd|].
      intros key Hin Hr. apply (Hdis key Hin). simpl. now right.
Qed.

Lemma getKeyToVals_snapshots (keyToUis : KeyToUis) :
  keysDistinct keyToUis -> getKeyToVals keyToUis = snapshots keyToUis.
Proof.
  intros H. unfold getKeyToVals. rewrite getKeyToVals_fold; auto.
Qed.

Lemma mapGet_snapshots (keyToUis : KeyToUis) (key : string) :
  keysDistinct keyToUis ->
  mapGet key (snapshots keyToUis) =
  match mapGet key keyToUis with
  | Some ui => snapshotOf ui
  | None => None
  end.
Proof.
  unfold keysDistinct.
  induction keyToUis as [|[k ui] rest IH]; intros Hnd; simpl; [reflexivity|].
  simpl in Hnd. apply NoDup_cons in Hnd as [Hk Hnd].
  rewrite list_elem_of_In in Hk.
  destruct (String.eqb_spec k key) as [->|Hne].
  - destruct (snapshotOf ui) as [e|] eqn:E; simpl.
    + now rewrite String.eqb_refl.
    + apply mapGet_None. intros Hin. apply Hk. now apply snapshots_keys.
  - destruct (snapshotOf ui) as [e|]; simpl; [|auto].
    destruct (String.eqb_spec k key); [contradiction | auto].
Qed.

(** The snapshot holds a key exactly when the key's controls record
    something: a select with a value other than the empty string, or a
    check box group whose enabled-toggle is checked and whose
    relation-toggle exists. *)
Lemma getKeyToVals_present (keyToUis : KeyToUis) (key : string) :
  keysDistinct keyToUis ->
  mapGet key (getKeyToVals keyToUis) =
  match mapGet key keyToUis with
  | Some ui => snapshotOf ui
  | None => None
  end.
Proof.
  intros H. rewrite getKeyToVals_snapshots by exact H. now apply mapGet_snapshots.
Qed.

(** C7: the failing input. The enabled-toggle of the key [size] is on and
    two of its value-toggles are checked, but the group has no
    relation-toggle: the snapshot does not hold the key. *)
Theorem getKeyToVals_without_relation_toggle :
  let size :=
    mkUi "size-%value%" "size" checkbox
         (Some (mkInput "on" true), None,
          Some [mkInput "S" true; mkInput "M" true; mkInput "L" false]) in
  getKeyToVals [("size", size)] = []
  /\ mapHas "size" (getKeyToVals [("size", size)]) = false.
Proof. split; reflexivity. Qed.

(** In general: a check box group without relation-toggle is never in the
    snapshot, whatever the state of its enabled-toggle. *)
Lemma getKeyToVals_needs_relation_toggle (keyToUis : KeyToUis) (key : string) (ui : Ui)
    (ena : option Input) (cbs : option (list Input)) :
  keysDistinct keyToUis -> mapGet key keyToUis = Some ui ->
  u_type ui = checkbox -> u_es ui = (ena, None, cbs) ->
  mapGet key (getKeyToVals keyToUis) = None.
Proof.
  intros Hd Hui Ht He. rewrite getKeyToVals_present, Hui by exact Hd.
  unfold snapshotOf. rewrite Ht, He. now destruct ena.
Qed.

(** The same group with a relation-toggle is in the snapshot. *)
Lemma getKeyToVals_with_relation_toggle :
  getKeyToVals
    [("size",
      mkUi "size-%value%" "size" checkbox
           (Some (mkInput "on" true), Some (mkInput "on" false),
            Some [mkInput "S" true; mkInput "M" true; mkInput "L" false]))]
  = [("size", mkVals OR ["S"; "M"] "size-%value%" "size")].
Proof. reflexivity. Qed.

(** ** The coupling of the enabled-toggle and the value-toggles *)

Lemma isCheckedAtLeastOne_existsb (cbs : list Input) :
  isCheckedAtLeastOne cbs = existsb checked cbs.
Proof. induction cbs as [|cb cbs IH]; simpl; [reflexivity | now rewrite IH; destruct (checked cb)]. Qed.

Lemma isCheckedAll_forallb (cbs : list Input) :
  isCheckedAll cbs = forallb checked cbs.
Proof. induction cbs as [|cb cbs IH]; simpl; [reflexivity | now rewrite IH; destruct (checked cb)]. Qed.

Lemma isCheckedAll_set_true (cbs : list Input) :
  isCheckedAll (map (setChecked true) cbs) = true.
Proof. induction cbs; simpl; auto. Qed.

Lemma isCheckedAtLeastOne_set_false (cbs : list Input) :
  isCheckedAtLeastOne (map (setChecked false) cbs) = false.
Proof. induction cbs; simpl; auto. Qed.

Lemma isCheckedAtLeastOne_iff (cbs : list Input) :
  isCheckedAtLeastOne cbs = true <-> exists j cb, cbs !! j = Some cb /\ checked cb = true.
Proof.
  induction cbs as [|c cbs IH]; simpl.
  - split; [discriminate | intros (j & cb & H & _); destruct j; discriminate].
  - destruct (checked c) eqn:E.
    + split; [intros _; exists 0, c; auto | reflexivity].
    + rewrite IH. split.
      * intros (j & cb & H & Hc). exists (S j), cb. auto.
      * intros (j & cb & H & Hc). destruct j as [|j]; simpl in H.
        -- injection H as ->. congruence.
        -- exists j, cb. auto.
Qed.

Lemma isCheckedAll_lookup (cbs : list Input) (j : nat) (cb : Input) :
  isCheckedAll cbs = true -> cbs !! j = Some cb -> checked cb = true.
Proof.
  revert j; induction cbs as [|c cbs IH]; intros j Hall H; [destruct j; discriminate|].
  simpl in Hall. destruct (checked c) eqn:E; [|discriminate]. simpl in Hall.
  destruct j as [|j]; simpl in H; [injection H as <-; exact E | eauto].
Qed.

Lemma clickEna_on (ena : Input) (cbs : list Input) :
  checked ena = false -> isCheckedAtLeastOne cbs = false ->
  clickEna (ena, cbs) = (setChecked true ena, map (setChecked true) cbs).
Proof.
  intros He Hc. unfold clickEna, toggle, enaListener. rewrite He, Hc. reflexivity.
Qed.

Lemma clickEna_off (ena : Input) (cbs : list Input) :
  checked ena = true -> isCheckedAll cbs = true ->
  clickEna (ena, cbs) = (setChecked false ena, map (setChecked false) cbs).
Proof.
  intros He Hc. unfold clickEna, toggle, enaListener. rewrite He. simpl. now rewrite Hc.
Qed.

Lemma clickCb_master (i : nat) (ena : Input) (cbs : list Input) :
  clickCb i (ena, cbs) =
  (setChecked (isCheckedAtLeastOne (alter toggle i cbs)) ena, alter toggle i cbs).
Proof. reflexivity. Qed.

Lemma deselect_one_of_all (i : nat) (cbs : list Input) :
  1 < length cbs -> isCheckedAll cbs = true ->
  isCheckedAtLeastOne (alter toggle i cbs) = true.
Proof.
  intros Hlen Hall. apply isCheckedAtLeastOne_iff.
  set (j := if decide (i = 0) then 1 else 0).
  assert (Hj : j < length cbs) by (unfold j; case_decide; lia).
  assert (Hij : i <> j) by (unfold j; case_decide; lia).
  destruct (lookup_lt_is_Some_2 cbs j Hj) as [cb Hcb].
  exists j, cb. split.
  - now rewrite list_lookup_alter_ne.
  - eapply isCheckedAll_lookup; eauto.
Qed.

Lemma deselect_last_selected (i : nat) (cb : Input) (cbs : list Input) :
  cbs !! i = Some cb -> checked cb = true ->
  (forall j c, j <> i -> cbs !! j = Some c -> checked c = false) ->
  isCheckedAtLeastOne (alter toggle i cbs) = false.
Proof.
  intros Hi Hc Hothers.
  destruct (isCheckedAtLeastOne (alter toggle i cbs)) eqn:E; [|reflexivity].
  apply isCheckedAtLeastOne_iff in E as (j & c & Hj & Hcj).
  destruct (decide (j = i)) as [->|Hne].
  - rewrite list_lookup_alter in Hj. rewrite decide_True in Hj by reflexivity.
    rewrite Hi in Hj. simpl in Hj.
    injection Hj as <-. unfold toggle in Hcj. simpl in Hcj. now rewrite Hc in Hcj.
  - rewrite list_lookup_alter_ne in Hj by auto.
    rewrite (Hothers j c Hne Hj) in Hcj. discriminate.
Qed.

(** C6, as the code has it. Checking the enabled-toggle while no
    value-toggle is checked checks all value-toggles; unchecking it while
    all are checked unchecks all of them; after a click on a value-toggle
    the enabled-toggle is checked iff at least one value-toggle is.
    Unchecking one value-toggle of a fully checked group of two or more
    leaves the enabled-toggle checked; unchecking the last checked
    value-toggle unchecks it. *)
Theorem enabled_toggle_coupling (ena : Input) (cbs : list Input) :
  (checked ena = false -> isCheckedAtLeastOne cbs = false ->
   clickEna (ena, cbs) = (setChecked true ena, map (setChecked true) cbs))
  /\ (checked ena = true -> isCheckedAll cbs = true ->
      clickEna (ena, cbs) = (setChecked false ena, map (setChecked false) cbs))
  /\ (forall i,
         snd (clickCb i (ena, cbs)) = alter toggle i cbs
         /\ checked (fst (clickCb i (ena, cbs)))
            = isCheckedAtLeastOne (snd (clickCb i (ena, cbs))))
  /\ (forall i,
         i < length cbs -> 1 < length cbs -> isCheckedAll cbs = true ->
         checked (fst (clickCb i (ena, cbs))) = true)
  /\ (forall i cb,
         cbs !! i = Some cb -> checked cb = true ->
         (forall j c, j <> i -> cbs !! j = Some c -> checked c = false) ->
         checked (fst (clickCb i (ena, cbs))) = false).
Proof.
  split; [apply clickEna_on|].
  split; [apply clickEna_off|].
  split; [intros i; now rewrite clickCb_master|].
  split.
  - intros i _ Hlen Hall. rewrite clickCb_master. simpl. now apply deselect_one_of_all.
  - intros i cb Hi Hc Ho. rewrite clickCb_master. simpl.
    now apply (deselect_last_selected i cb).
Qed.

Lemma enabled_toggle_coupling_witness :
  clickEna (mkInput "on" false, [mkInput "S" false; mkInput "M" false])
  = (mkInput "on" true, [mkInput "S" true; mkInput "M" true])
  /\ checked (fst (clickCb 1 (mkInput "on" true, [mkInput "S" true; mkInput "M" true])))
     = true.
Proof.
  split.
  - exact (proj1 (enabled_toggle_coupling
                    (mkInput "on" false) [mkInput "S" false; mkInput "M" false])
                 eq_refl eq_refl).
  - refine (proj1 (proj2 (proj2 (proj2 (enabled_toggle_coupling
                    (mkInput "on" true) [mkInput "S" true; mkInput "M" true]))))
                  1 _ _ eq_refl); simpl; lia.
Defined.

(** C6 fails as stated for a group with a single value-toggle: all of its
    value-toggles are checked, one is unchecked, and the enabled-toggle
    does not stay checked. *)
Lemma deselect_only_toggle_unchecks_master :
  ~ (forall (ena : Input) (cbs : list Input) (i : nat),
        i < length cbs -> isCheckedAll cbs = true ->
        checked (fst (clickCb i (ena, cbs))) = true).
Proof.
  intros H.
  specialize (H (mkInput "on" true) [mkInput "S" true] 0).
  simpl in H. discriminate H; [lia | reflexivity].
Qed.

(** ** URL codec: encoding *)







(** ** URL codec: decoding into a select *)


Lemma applyUrlParam_select_plain (v : string) (ui : Ui) (sel : Input)
    (rel : option Input) (cbs : option (list Input)) :
  u_type ui = select -> u_es ui = (Some sel, rel, cbs) -> startsWith "." v = false ->
  applyUrlParam v ui = setEs (Some (setValue v sel), rel, cbs) ui.
Proof. intros Ht He Hv. unfold applyUrlParam. now rewrite Hv, Ht, He. Qed.



(** ** Visibility aggregator *)

Section Aggregation.

Lemma stackOk_ext (store store' : list Child) (hs : list nat) :
  (forall j, depthAt store' j = depthAt store j) ->
  stackOk store hs -> stackOk store' hs.
Proof.
  intros Hext H. induction H as [|j d rest Hj Hrest _ IH]; [constructor|].
  apply (stackOk_cons _ j d); [now rewrite Hext | | exact IH].
  intros j' Hin. destruct (Hrest j' Hin) as (d' & Hd' & Hlt).
  exists d'. now rewrite Hext.
Qed.

Lemma stackOk_heading (store : list Child) (hs : list nat) (j : nat) :
  stackOk store hs -> In j hs -> exists d, depthAt store j = Some d.
Proof.
  intros H. induction H as [|k d rest Hk Hrest _ IH]; simpl; [tauto|].
  intros [<- | Hin]; eauto.
Qed.

Lemma stackOk_NoDup (store : list Child) (hs : list nat) :
  stackOk store hs -> List.NoDup hs.
Proof.
  intros H. induction H as [|j d rest Hj Hrest _ IH]; constructor; [|exact IH].
  intros Hin. destruct (Hrest j Hin) as (d' & Hd' & Hlt).
  rewrite Hj in Hd'. injection Hd' as <-. lia.
Qed.

(** The headings left on the stack by the [while] loop are those less
    deep than the new heading. *)
Lemma popClosed_spec (store : list Child) (hi : Z) (hs : list nat) :
  stackOk store hs ->
  stackOk store (popClosed store hi hs)
  /\ forall j, In j (popClosed store hi hs) <->
               In j hs /\ exists d, depthAt store j = Some d /\ (d < hi)%Z.
Proof.
  intros H. induction H as [|k d rest Hk Hrest Hok IH].
  - split; [constructor|]. simpl. intros j. split; [tauto | intros [[] _]].
  - destruct IH as [IH1 IH2].
    assert (Hk' := Hk). unfold depthAt in Hk'.
    cbn [popClosed].
    destruct (store !! k) as [[dk ck hk | items ck]|] eqn:Ek; try discriminate.
    injection Hk' as ->.
    destruct (Z.gtb_spec hi d) as [Hgt | Hle].
    + split; [now apply (stackOk_cons _ k d)|].
      intros j. split; [|tauto].
      intros Hin. split; [exact Hin|].
      destruct Hin as [<- | Hin]; [exists d; split; [exact Hk | lia]|].
      destruct (Hrest j Hin) as (d' & Hd' & Hlt). exists d'. split; [exact Hd' | lia].
    + split; [exact IH1|].
      intros j. rewrite IH2. split.
      * intros [Hin Hd]. split; [now right | exact Hd].
      * intros [[<- | Hin] Hd]; [|tauto].
        destruct Hd as (d' & Hd' & Hlt). rewrite Hk in Hd'. injection Hd' as <-. lia.
Qed.

Lemma fold_alter_lookup_out (f : Child -> Child) (l : list nat) (store : list Child)
    (j : nat) :
  ~ In j l -> fold_left (fun cs h => alter f h cs) l store !! j = store !! j.
Proof.
  revert store; induction l as [|x l IH]; intros store Hx; [reflexivity|].
  cbn [fold_left]. rewrite IH by (simpl in Hx; tauto).
  apply list_lookup_alter_ne. simpl in Hx. intros ->. tauto.
Qed.

Lemma fold_alter_lookup_in (f : Child -> Child) (l : list nat) (store : list Child)
    (j : nat) :
  List.NoDup l -> In j l ->
  fold_left (fun cs h => alter f h cs) l store !! j = f <$> store !! j.
Proof.
  revert store; induction l as [|k l IH]; intros store Hnd Hin; [destruct Hin|].
  inversion Hnd as [|? ? Hk Hnd']; subst. cbn [fold_left].
  destruct (decide (j = k)) as [->|Hne].
  - rewrite fold_alter_lookup_out by exact Hk.
    rewrite list_lookup_alter. now rewrite decide_True.
  - destruct Hin as [-> | Hin]; [contradiction|].
    rewrite IH by assumption.
    now rewrite list_lookup_alter_ne by auto.
Qed.

Lemma fold_alter_length (f : Child -> Child) (l : list nat) (store : list Child) :
  length (fold_left (fun cs h => alter f h cs) l store) = length store.
Proof.
  revert store; induction l as [|x l IH]; intros store; [reflexivity|].
  cbn [fold_left]. now rewrite IH, length_alter.
Qed.

Lemma depthAt_addCount (c : nat) (l : list nat) (store : list Child) (j : nat) :
  depthAt (fold_left (fun cs h => alter (addCount c) h cs) l store) j = depthAt store j.
Proof.
  revert store; induction l as [|x l IH]; intros store; [reflexivity|].
  cbn [fold_left]. rewrite IH. unfold depthAt.
  rewrite list_lookup_alter. case_decide; [subst|reflexivity].
  destruct (store !! j) as [[d n h|items n]|]; reflexivity.
Qed.


Lemma hasList_false_listSum (es : list Child) :
  hasList es = false -> listSum es = 0.
Proof.
  induction es as [|[d c h|items c] es IH]; simpl; auto. discriminate.
Qed.

Lemma aggregate_closed (d : Z) (c : nat) (h : bool) :
  aggregate d c h [] = Heading d c h.
Proof. unfold aggregate. simpl. now rewrite Nat.add_0_r. Qed.

Lemma aggregate_heading_open (d : Z) (c : nat) (h : bool) (hi : Z) (c0 : nat) (h0 : bool)
    (tl : list Child) :
  (d < hi)%Z -> aggregate d c h (Heading hi c0 h0 :: tl) = aggregate d c h tl.
Proof.
  intros Hlt. unfold aggregate. simpl.
  destruct (Z.leb_spec hi d); [lia | reflexivity].
Qed.

Lemma aggregate_heading_closes (d : Z) (c : nat) (h : bool) (hi : Z) (c0 : nat)
    (h0 : bool) (tl : list Child) :
  (hi <= d)%Z -> aggregate d c h (Heading hi c0 h0 :: tl) = Heading d c h.
Proof.
  intros Hle. unfold aggregate. simpl.
  destruct (Z.leb_spec hi d); [simpl; now rewrite Nat.add_0_r | lia].
Qed.

Lemma aggregate_list (d : Z) (c : nat) (h : bool) (items : list Item) (c0 : nat)
    (tl : list Child) :
  aggregate d c h (ListBlock items c0 :: tl)
  = aggregate d (c + c0) (c + c0 =? 0)%nat tl.
Proof.
  unfold aggregate. simpl.
  rewrite Nat.add_assoc.
  destruct (hasList (scope d tl)) eqn:E; [reflexivity|].
  now rewrite (hasList_false_listSum _ E), Nat.add_0_r.
Qed.

Lemma drop_cons_inv (i : nat) (store : list Child) (e : Child) (es : list Child) :
  drop i store = e :: es -> store !! i = Some e /\ drop (S i) store = es.
Proof.
  intros H. split.
  - rewrite <- (Nat.add_0_r i), <- lookup_drop, H. reflexivity.
  - replace (S i) with (i + 1) by lia.
    rewrite <- (drop_drop store 1 i). rewrite H. reflexivity.
Qed.

Lemma countUpStep_heading (store : list Child) (hs : list nat) (i : nat) (hi : Z)
    (c : nat) (h : bool) :
  store !! i = Some (Heading hi c h) ->
  countUpStep (store, hs) i = (store, i :: popClosed store hi hs).
Proof. intros H. unfold countUpStep. now rewrite H. Qed.

Lemma countUpStep_list (store : list Child) (hs : list nat) (i : nat)
    (items : list Item) (count : nat) :
  store !! i = Some (ListBlock items count) ->
  countUpStep (store, hs) i
  = (fold_left (fun cs h => alter (addCount count) h cs) (rev hs) store, hs).
Proof. intros H. unfold countUpStep. now rewrite H. Qed.

(** The second loop of [#countUpItems] from child [i] on, the children
    before [i] being passed and [hs] holding the open headings. *)
Lemma countUp_run (es : list Child) :
  forall (i : nat) (store : list Child) (hs : list nat),
    drop i store = es ->
    stackOk store hs ->
    (forall j, In j hs -> j < i) ->
    let store' := fst (fold_left countUpStep (seq i (length es)) (store, hs)) in
    length store' = length store
    /\ (forall j d c h,
           In j hs -> store !! j = Some (Heading d c h) ->
           store' !! j = Some (aggregate d c h es))
    /\ (forall j, j < i -> ~ In j hs -> store' !! j = store !! j)
    /\ (forall m d c h,
           es !! m = Some (Heading d c h) ->
           store' !! (i + m) = Some (aggregate d c h (drop (S m) es)))
    /\ (forall m items c,
           es !! m = Some (ListBlock items c) ->
           store' !! (i + m) = Some (ListBlock items c)).
Proof.
  induction es as [|e es' IH]; intros i store hs Hdrop Hok Hlt.
  - simpl. split; [reflexivity|].
    split; [intros j d c h _ Hj; now rewrite aggregate_closed|].
    split; [reflexivity|].
    split; intros m; intros; discriminate.
  - apply drop_cons_inv in Hdrop as [Hi Hdrop].
    cbn [length seq fold_left].
    destruct e as [hi c0 h0 | items c0].
    + (* a heading *)
      rewrite (countUpStep_heading _ _ _ _ _ _ Hi).
      destruct (popClosed_spec store hi hs Hok) as [Hpok Hpin].
      assert (Hdi : depthAt store i = Some hi) by (unfold depthAt; now rewrite Hi).
      assert (Hok1 : stackOk store (i :: popClosed store hi hs)).
      { apply (stackOk_cons _ i hi); [exact Hdi | | exact Hpok].
        intros j' Hin. apply Hpin in Hin as [_ Hd]. exact Hd. }
      assert (Hlt1 : forall j, In j (i :: popClosed store hi hs) -> j < S i).
      { intros j [<- | Hin]; [lia|]. apply Hpin in Hin as [Hin _].
        specialize (Hlt j Hin). lia. }
      destruct (IH (S i) store _ Hdrop Hok1 Hlt1) as (HL & HA & HB & HC & HD).
      split; [exact HL|]. split; [|split; [|split]].
      * intros j d c h Hin Hj.
        assert (Hdj : depthAt store j = Some d) by (unfold depthAt; now rewrite Hj).
        destruct (Z.lt_ge_cases d hi) as [Hd | Hd].
        -- rewrite aggregate_heading_open by exact Hd.
           apply HA; [|exact Hj]. right. apply Hpin. split; [exact Hin|].
           exists d. auto.
        -- rewrite aggregate_heading_closes by exact Hd.
           rewrite HB; [exact Hj | specialize (Hlt j Hin); lia |].
           intros [<- | Hp]; [specialize (Hlt i Hin); lia|].
           apply Hpin in Hp as [_ (d' & Hd' & Hlt')].
           rewrite Hdj in Hd'. injection Hd' as <-. lia.
      * intros j Hj Hnin. apply HB; [lia|].
        intros [<- | Hp]; [lia|]. apply Hpin in Hp as [Hp _]. contradiction.
      * intros [|m] d c h Hm.
        -- simpl in Hm. injection Hm as -> -> ->. rewrite Nat.add_0_r.
           simpl. apply HA; [now left | exact Hi].
        -- simpl in Hm. replace (i + S m) with (S i + m) by lia.
           simpl drop. now apply HC.
      * intros [|m] items c Hm; [discriminate|].
        simpl in Hm. replace (i + S m) with (S i + m) by lia. now apply HD.
    + (* a list block *)
      rewrite (countUpStep_list _ _ _ _ _ Hi).
      set (store1 := fold_left (fun cs h => alter (addCount c0) h cs) (rev hs) store).
      assert (Hnd : List.NoDup (rev hs)).
      { apply List.NoDup_rev. now apply (stackOk_NoDup store). }
      assert (Hout : forall j, ~ In j hs -> store1 !! j = store !! j).
      { intros j Hj. apply fold_alter_lookup_out. now rewrite <- in_rev. }
      assert (Hdrop1 : drop (S i) store1 = es').
      { rewrite <- Hdrop. apply list_eq. intros k. rewrite !lookup_drop.
        apply Hout. intros Hin. specialize (Hlt _ Hin). lia. }
      assert (Hok1 : stackOk store1 hs).
      { apply (stackOk_ext store); [|exact Hok].
        intros j. apply depthAt_addCount. }
      assert (Hlt1 : forall j, In j hs -> j < S i).
      { intros j Hin. specialize (Hlt j Hin). lia. }
      destruct (IH (S i) store1 hs Hdrop1 Hok1 Hlt1) as (HL & HA & HB & HC & HD).
      split; [rewrite HL; apply fold_alter_length|].
      split; [|split; [|split]].
      * intros j d c h Hin Hj. rewrite aggregate_list.
        apply HA; [exact Hin|]. unfold store1.
        rewrite fold_alter_lookup_in; [| exact Hnd | now rewrite <- in_rev].
        now rewrite Hj.
      * intros j Hj Hnin. rewrite HB; [now apply Hout | lia | exact Hnin].
      * intros [|m] d c h Hm; [discriminate|].
        simpl in Hm. replace (i + S m) with (S i + m) by lia.
        simpl drop. now apply HC.
      * intros [|m] items' c Hm.
        -- simpl in Hm. injection Hm as <- <-. rewrite Nat.add_0_r.
           assert (Hni : ~ In i hs) by (intros Hin; specialize (Hlt i Hin); lia).
           rewrite HB; [| lia | exact Hni]. now rewrite Hout.
        -- simpl in Hm. replace (i + S m) with (S i + m) by lia. now apply HD.
Qed.


Lemma scope_resetCount (d : Z) (es : list Child) :
  scope d (map resetCount es) = map resetCount (scope d es).
Proof.
  induction es as [|[d' c h|items c] es IH]; simpl; [reflexivity| |now rewrite IH].
  destruct (d' <=? d)%Z; [reflexivity | simpl; now rewrite IH].
Qed.

Lemma listSum_resetCount (es : list Child) : listSum (map resetCount es) = listSum es.
Proof. induction es as [|[d c h|items c] es IH]; simpl; auto. Qed.

Lemma hasList_resetCount (es : list Child) : hasList (map resetCount es) = hasList es.
Proof. induction es as [|[d c h|items c] es IH]; simpl; auto. Qed.

Lemma countUpItems_run (children : list Child) :
  let store' := countUpItems children in
  length store' = length children
  /\ (forall m d c h,
         children !! m = Some (Heading d c h) ->
         store' !! m = Some (aggregate d 0 h (drop (S m) children)))
  /\ (forall m items c,
         children !! m = Some (ListBlock items c) ->
         store' !! m = Some (ListBlock items c)).
Proof.
  unfold countUpItems.
  destruct (countUp_run (map resetCount children) 0 (map resetCount children) [])
    as (HL & _ & _ & HC & HD).
  - reflexivity.
  - constructor.
  - intros j [].
  - rewrite length_map in *. simpl in HC, HD.
    split; [exact HL|]. split.
    + intros m d c h Hm.
      rewrite (HC m d 0 h) by (rewrite list_lookup_fmap, Hm; reflexivity).
      unfold aggregate. rewrite skipn_map.
      now rewrite scope_resetCount, listSum_resetCount, hasList_resetCount.
    + intros m items c Hm.
      apply HD. now rewrite list_lookup_fmap, Hm.
Qed.

(** What [#countUpItems] leaves on a heading: its count is the sum of
    the counts of the list blocks between it and the next heading of
    equal or lesser depth; its [hidden] attribute is set iff that sum is
    zero when there is such a list block, and is left as it was when
    there is none. List blocks are left as they were. *)
Theorem countUpItems_heading (pre post : list Child) (d : Z) (c : nat) (h : bool) :
  let s := scope d post in
  countUpItems (pre ++ Heading d c h :: post) !! length pre
  = Some (Heading d (listSum s) (if hasList s then (listSum s =? 0)%nat else h)).
Proof.
  intros s.
  destruct (countUpItems_run (pre ++ Heading d c h :: post)) as (_ & H & _).
  rewrite (H (length pre) d c h) by (now rewrite list_lookup_middle).
  unfold aggregate. fold s.
  replace (drop (S (length pre)) (pre ++ Heading d c h :: post)) with post.
  - reflexivity.
  - replace (S (length pre)) with (length pre + 1) by lia.
    now rewrite drop_app_add.
Qed.

End Aggregation.

(** C2: the failing input. Two headings of depth 1, the first followed by
    a list block with three visible items, the second by nothing. The
    second heading ends with count 0 and without the [hidden] attribute. *)
Theorem countUpItems_heading_without_list :
  let li := mkItem ["news"] false in
  countUpItems [Heading 1 0 false; ListBlock [li; li; li] 3; Heading 1 0 false]
  = [Heading 1 3 false; ListBlock [li; li; li] 3; Heading 1 0 false].
Proof. reflexivity. Qed.

(** The same children after a whole recompute cycle without criteria. *)
Lemma update_heading_without_list :
  let li := mkItem ["news"] false in
  listElm
    (update
       (mkInstance [] [Heading 1 0 false; ListBlock [li; li; li] 0; Heading 1 0 false]
          false true (mkLocation "https://example.org" "/news/" EmptyString EmptyString) None 0))
  = [Heading 1 3 false; ListBlock [li; li; li] 3; Heading 1 0 false].
Proof. reflexivity. Qed.

(** ** Recompute cycle and reentrancy guard *)


Lemma update_released (t : Instance) :
  stopUpdate t = false -> cycles (update t) = S (cycles t).
Proof. intros H. unfold update. now rewrite H. Qed.





(** ** URL codec: round trip *)




























Lemma sameElements_refl (es : Es) : sameElements es es.
Proof. destruct es as [[a r] c]. simpl. tauto. Qed.


Lemma getStateFromUrlParams_cons (usp : list (string * string)) (key : string) (ui : Ui)
    (rest : KeyToUis) :
  getStateFromUrlParams usp ((key, ui) :: rest)
  = (key, match mapGet (u_qvar ui) usp with
          | Some v0 => applyUrlParam v0 ui
          | None => ui
          end) :: getStateFromUrlParams usp rest.
Proof.
  unfold getStateFromUrlParams. cbn [map]. now destruct (mapGet (u_qvar ui) usp).
Qed.








Lemma setUrlParams_encodedSearch (location : Location) (keyToVals : KeyToVals) :
  setUrlParams location keyToVals
  = (if String.eqb (encodedSearch keyToVals) EmptyString
     then origin location +:+ pathname location
     else encodedSearch keyToVals) +:+ hash location.
Proof.
  unfold setUrlParams, encodedSearch.
  now destruct (0 <? length (urlPairs keyToVals))%nat.
Qed.




(** A value with [&] does not come back either: the parser ends the pair
    at the [&]. *)
Lemma url_round_trip_splits_ampersand :
  let keyToUis :=
    [("tag", mkUi "tag-%value%" "tag" checkbox
               (Some (mkInput "on" true), Some (mkInput "on" false),
                Some [mkInput "R&D" true; mkInput "sales" false]))] in
  let keyToVals := getKeyToVals keyToUis in
  encodedSearch keyToVals = "?tag=R&D"
  /\ URLSearchParams (encodedSearch keyToVals) = [("tag", "R"); ("D", EmptyString)]
  /\ getKeyToVals
       (getStateFromUrlParams (URLSearchParams (encodedSearch keyToVals)) keyToUis)
     = [("tag", mkVals OR [] "tag-%value%" "tag")].
Proof. repeat split. Qed.

(* ================================================================== *)
(** * Part III: further properties of the code                          *)
(* ================================================================== *)

(** ** Match evaluator: order and monotony *)

(** X1. The result of [#isMatch] does not depend on the order in which the
    keys are held in the criterion set. *)
Theorem isMatch_key_order (li : Item) (kvs kvs' : KeyToVals)
    (Hperm : Permutation kvs kvs') :
  isMatch li kvs = isMatch li kvs'.
Proof.
  induction Hperm as [|[k e] l l' _ IH|[k e] [k' e'] l|l l' l'' _ IH1 _ IH2].
  - reflexivity.
  - now rewrite !isMatch_cons, IH.
  - rewrite !isMatch_cons.
    destruct (isMatchOne li (v_vs e) _ _), (isMatchOne li (v_vs e') _ _); reflexivity.
  - now rewrite IH1.
Qed.

Lemma isMatch_key_order_witness :
  let li := mkItem ["color-red"; "size-S"] false in
  let color := ("color", mkVals OR ["red"; "blue"] "color-%value%" "color") in
  let size := ("size", mkVals AND ["S"] "size-%value%" "size") in
  isMatch li [color; size] = isMatch li [size; color].
Proof.
  intros li color size.
  apply (isMatch_key_order li [color; size] [size; color]).
  apply perm_swap.
Defined.

(** X2. Further criteria never show more items: an item that matches a
    criterion set matches every set made of some of its entries. Within a
    key, further values never hide an item under OR and never show one
    under AND. *)
Theorem isMatch_monotone (li : Item) :
  (forall kvs kvs' : KeyToVals,
      incl kvs kvs' -> isMatch li kvs' = true -> isMatch li kvs = true)
  /\ (forall (vs vs' : list string) cls,
         incl vs vs' ->
         isMatchOne li vs cls true = true -> isMatchOne li vs' cls true = true)
  /\ (forall (vs vs' : list string) cls,
         incl vs vs' ->
         isMatchOne li vs' cls false = true -> isMatchOne li vs cls false = true).
Proof.
  split; [|split].
  - intros kvs kvs' Hincl H. rewrite isMatch_iff in *.
    intros key e Hin. apply (H key e). now apply Hincl.
  - intros vs vs' cls Hincl H. unfold isMatchOne in *.
    rewrite isMatchOneOr_iff in *. destruct H as (v & Hv & Hc).
    exists v. split; [now apply Hincl | exact Hc].
  - intros vs vs' cls Hincl H. unfold isMatchOne in *.
    rewrite isMatchOneAnd_iff in *. intros v Hv. apply H. now apply Hincl.
Qed.

Lemma isMatch_monotone_witness :
  let li := mkItem ["color-red"; "size-S"] false in
  isMatch li [("color", mkVals OR ["red"] "color-%value%" "color")] = true.
Proof.
  intros li.
  apply (proj1 (isMatch_monotone li)
           [("color", mkVals OR ["red"] "color-%value%" "color")]
           [("size", mkVals AND ["S"] "size-%value%" "size");
            ("color", mkVals OR ["red"] "color-%value%" "color")]).
  - intros x [<- | []]. right. now left.
  - reflexivity.
Defined.

(** ** Reading the controls: order and multiplicity *)

Lemma snapshots_keysDistinct (keyToUis : KeyToUis) :
  keysDistinct keyToUis -> keysDistinct (snapshots keyToUis).
Proof.
  unfold keysDistinct.
  induction keyToUis as [|[k ui] rest IH]; intros Hnd; [exact Hnd|].
  simpl in Hnd. apply NoDup_cons in Hnd as [Hk Hnd].
  cbn [snapshots]. destruct (snapshotOf ui) as [e|]; [|now apply IH].
  simpl. apply NoDup_cons. split; [|now apply IH].
  rewrite list_elem_of_In in *. intros Hin. apply Hk. now apply snapshots_keys.
Qed.

(** X3. The snapshot read from controls with pairwise distinct keys lists
    the keys whose controls record something, in the order of the controls
    and each once; a key is looked up in it with what its controls
    record. *)
Theorem snapshot_in_control_order (keyToUis : KeyToUis) (Hd : keysDistinct keyToUis) :
  getKeyToVals keyToUis = snapshots keyToUis
  /\ keysDistinct (getKeyToVals keyToUis)
  /\ forall key,
       mapGet key (getKeyToVals keyToUis)
       = match mapGet key keyToUis with
         | Some ui => snapshotOf ui
         | None => None
         end.
Proof.
  split; [now apply getKeyToVals_snapshots|].
  split.
  - rewrite getKeyToVals_snapshots by exact Hd. now apply snapshots_keysDistinct.
  - intros key. now apply getKeyToVals_present.
Qed.

Lemma snapshot_in_control_order_witness :
  getKeyToVals
    [("size", mkUi "size-%value%" "size" checkbox
                (Some (mkInput "on" true), Some (mkInput "on" false),
                 Some [mkInput "S" false; mkInput "M" true; mkInput "L" true]));
     ("tag", mkUi "tag-%value%" "tag" select (Some (mkInput EmptyString false), None, None));
     ("color", mkUi "color-%value%" "color" select (Some (mkInput "red" false), None, None))]
  = [("size", mkVals OR ["M"; "L"] "size-%value%" "size");
     ("color", mkVals OR ["red"] "color-%value%" "color")].
Proof.
  refine (proj1 (snapshot_in_control_order _ _)).
  unfold keysDistinct. apply NoDup_ListNoDup.
  repeat constructor; simpl; intuition discriminate.
Defined.

(** ** The value-toggles of a group *)

Lemma getCheckedVals_nil_iff (cbs : list Input) :
  getCheckedVals cbs = [] <-> isCheckedAtLeastOne cbs = false.
Proof.
  induction cbs as [|cb cbs IH]; [tauto|].
  simpl. destruct (checked cb); [split; discriminate | exact IH].
Qed.

(** X4. The checked values come in the order of the value-toggles; there
    is none iff no value-toggle is checked, and they are the values of all
    the value-toggles iff all are checked. *)
Theorem getCheckedVals_order (cbs : list Input) :
  sublist (getCheckedVals cbs) (map value cbs)
  /\ (getCheckedVals cbs = [] <-> isCheckedAtLeastOne cbs = false)
  /\ (length (getCheckedVals cbs) = length cbs <-> isCheckedAll cbs = true)
  /\ (isCheckedAll cbs = true -> getCheckedVals cbs = map value cbs).
Proof.
  split; [|split; [|split]].
  - induction cbs as [|cb cbs IH]; [constructor|].
    simpl. destruct (checked cb); [now apply sublist_skip | now apply sublist_cons].
  - apply getCheckedVals_nil_iff.
  - assert (Hle : forall l, length (getCheckedVals l) <= length l).
    { induction l as [|c l IHl]; simpl; [lia|]. destruct (checked c); simpl; lia. }
    induction cbs as [|cb cbs IH]; [tauto|].
    simpl. destruct (checked cb); simpl.
    + rewrite <- IH. split; [intros [= H]; exact H | intros ->; reflexivity].
    + split; [|discriminate]. intros H. specialize (Hle cbs). lia.
  - induction cbs as [|cb cbs IH]; [reflexivity|].
    simpl. destruct (checked cb); simpl; [|discriminate].
    intros H. now rewrite IH.
Qed.

Lemma getCheckedVals_order_witness :
  getCheckedVals [mkInput "S" true; mkInput "M" true]
  = map value [mkInput "S" true; mkInput "M" true].
Proof.
  apply (proj2 (proj2 (proj2 (getCheckedVals_order
                                [mkInput "S" true; mkInput "M" true])))).
  reflexivity.
Defined.

(** ** What a click leaves behind *)

Lemma isCheckedAtLeastOne_set_true (cbs : list Input) :
  cbs <> [] -> isCheckedAtLeastOne (map (setChecked true) cbs) = true.
Proof. destruct cbs; [contradiction | reflexivity]. Qed.

(** X5. After a click on the enabled-toggle or on a value-toggle of a
    group that has value-toggles, in whatever state the group was, the
    enabled-toggle is checked only if some value-toggle is: a click never
    leaves the key enabled with no value. *)
Theorem click_leaves_enabled_with_value (ena : Input) (cbs : list Input)
    (Hcbs : cbs <> []) :
  (checked (fst (clickEna (ena, cbs))) = true ->
   getCheckedVals (snd (clickEna (ena, cbs))) <> [])
  /\ forall i,
       checked (fst (clickCb i (ena, cbs))) = true ->
       getCheckedVals (snd (clickCb i (ena, cbs))) <> [].
Proof.
  split.
  - unfold clickEna, toggle, enaListener. cbn [fst snd checked setChecked].
    intros He. rewrite He. cbn [negb andb].
    destruct (isCheckedAtLeastOne cbs) eqn:E; cbn [negb].
    + intros H. apply getCheckedVals_nil_iff in H. congruence.
    + intros H. apply getCheckedVals_nil_iff in H.
      rewrite isCheckedAtLeastOne_set_true in H by exact Hcbs. discriminate.
  - intros i. rewrite clickCb_master. cbn [fst snd checked setChecked].
    intros He H. apply getCheckedVals_nil_iff in H. congruence.
Qed.

Lemma click_leaves_enabled_with_value_witness :
  getCheckedVals
    (snd (clickEna (mkInput "on" false, [mkInput "S" false; mkInput "M" false])))
  <> [].
Proof.
  refine (proj1 (click_leaves_enabled_with_value (mkInput "on" false)
                   [mkInput "S" false; mkInput "M" false] _) eq_refl).
  discriminate.
Defined.

(** ** Writing the URL state into the controls *)

Lemma map_value_setChecked (f : Input -> bool) (cbs : list Input) :
  map value (map (fun cb => setChecked (f cb) cb) cbs) = map value cbs.
Proof. induction cbs as [|cb cbs IH]; [reflexivity|]. cbn [map]. now rewrite IH. Qed.

Lemma applyUrlParam_binding (v0 : string) (ui : Ui) :
  u_cls (applyUrlParam v0 ui) = u_cls ui
  /\ u_qvar (applyUrlParam v0 ui) = u_qvar ui
  /\ u_type (applyUrlParam v0 ui) = u_type ui
  /\ sameElements (u_es (applyUrlParam v0 ui)) (u_es ui).
Proof.
  unfold applyUrlParam.
  destruct (if startsWith "." v0 then (substring1 v0, AND) else (v0, OR)) as [v oa].
  destruct (u_type ui) eqn:Et; destruct (u_es ui) as [[a r] c] eqn:Ee.
  - destruct a as [sel|]; cbn [setEs u_cls u_qvar u_type u_es];
      rewrite ?Ee; repeat split; auto; try (intros _; eauto).
  - cbn [setEs u_cls u_qvar u_type u_es]. repeat split; auto.
    + destruct a; cbn; intros [x Hx]; [eauto | discriminate].
    + destruct a; cbn; intros [x Hx]; [eauto | discriminate].
    + destruct r; cbn; intros [x Hx]; [eauto | discriminate].
    + destruct r; cbn; intros [x Hx]; [eauto | discriminate].
    + destruct c as [cbs|]; cbn [option_map]; [|reflexivity].
      f_equal. apply (map_value_setChecked (fun cb => existsb (String.eqb (value cb)) _)).
Qed.

(** X6. Decoding a URL changes what is selected and checked, never the
    controls themselves: the keys and their order, the tag patterns, the
    URL variables, the kinds, which elements exist and the values of the
    value-toggles are as before. *)
Theorem getStateFromUrlParams_keeps_bindings
    (usp : list (string * string)) (keyToUis : KeyToUis) :
  Forall2 sameBinding (getStateFromUrlParams usp keyToUis) keyToUis.
Proof.
  induction keyToUis as [|[key ui] rest IH]; [constructor|].
  rewrite getStateFromUrlParams_cons. constructor; [|exact IH].
  unfold sameBinding. cbn [fst snd].
  destruct (mapGet (u_qvar ui) usp) as [v0|].
  - split; [reflexivity | apply applyUrlParam_binding].
  - repeat split; auto using sameElements_refl.
Qed.

Lemma setChecked_setChecked (b : bool) (e : Input) :
  setChecked b (setChecked b e) = setChecked b e.
Proof. reflexivity. Qed.

Lemma applyUrlParam_twice (v0 : string) (ui : Ui) :
  applyUrlParam v0 (applyUrlParam v0 ui) = applyUrlParam v0 ui.
Proof.
  unfold applyUrlParam.
  destruct (if startsWith "." v0 then (substring1 v0, AND) else (v0, OR)) as [v oa].
  destruct (u_type ui) eqn:Et; destruct (u_es ui) as [[a r] c] eqn:Ee.
  - destruct a as [sel|]; cbn [setEs u_type u_es]; rewrite ?Et, ?Ee; reflexivity.
  - cbn [setEs u_type u_es u_cls u_qvar]. rewrite Et.
    unfold setEs. cbn [u_cls u_qvar u_type]. f_equal.
    f_equal; [f_equal|].
    + now destruct a.
    + now destruct r.
    + destruct c as [cbs|]; cbn [option_map]; [|reflexivity].
      f_equal. rewrite map_map. apply map_ext. intros cb. reflexivity.
Qed.

(** X7. Decoding the same URL a second time changes nothing. *)
Theorem getStateFromUrlParams_idempotent
    (usp : list (string * string)) (keyToUis : KeyToUis) :
  getStateFromUrlParams usp (getStateFromUrlParams usp keyToUis)
  = getStateFromUrlParams usp keyToUis.
Proof.
  induction keyToUis as [|[key ui] rest IH]; [reflexivity|].
  rewrite !getStateFromUrlParams_cons, IH. f_equal. f_equal.
  destruct (mapGet (u_qvar ui) usp) as [v0|] eqn:E.
  - destruct (applyUrlParam_binding v0 ui) as (_ & -> & _).
    rewrite E. apply applyUrlParam_twice.
  - now rewrite E.
Qed.

(** X8. Only the URL variables that keys are bound to matter, and of a
    repeated variable only the first value: two URLs that give the same
    first value for the variable of every key leave the same controls; a
    URL without the variable of any key leaves the controls as they are. *)
Theorem getStateFromUrlParams_bound_variables
    (usp usp' : list (string * string)) (keyToUis : KeyToUis) :
  ((forall key ui, In (key, ui) keyToUis ->
                   mapGet (u_qvar ui) usp = mapGet (u_qvar ui) usp') ->
   getStateFromUrlParams usp keyToUis = getStateFromUrlParams usp' keyToUis)
  /\ ((forall key ui, In (key, ui) keyToUis -> mapGet (u_qvar ui) usp = None) ->
      getStateFromUrlParams usp keyToUis = keyToUis).
Proof.
  split.
  - induction keyToUis as [|[key ui] rest IH]; intros H; [reflexivity|].
    rewrite !getStateFromUrlParams_cons.
    rewrite (H key ui) by now left.
    rewrite IH; [reflexivity|]. intros k u Hin. apply (H k u). now right.
  - induction keyToUis as [|[key ui] rest IH]; intros H; [reflexivity|].
    rewrite getStateFromUrlParams_cons.
    rewrite (H key ui) by now left.
    rewrite IH; [reflexivity|]. intros k u Hin. apply (H k u). now right.
Qed.

Lemma getStateFromUrlParams_bound_variables_witness :
  let keyToUis :=
    [("color", mkUi "color-%value%" "color" select
                 (Some (mkInput EmptyString false), None, None))] in
  getStateFromUrlParams (URLSearchParams "?page=2&color=red&color=blue") keyToUis
  = getStateFromUrlParams (URLSearchParams "?color=red") keyToUis
  /\ getStateFromUrlParams (URLSearchParams "?page=2") keyToUis = keyToUis.
Proof.
  intros keyToUis. split.
  - apply (proj1 (getStateFromUrlParams_bound_variables
                    (URLSearchParams "?page=2&color=red&color=blue")
                    (URLSearchParams "?color=red") keyToUis)).
    intros key ui [[= <- <-] | []]. reflexivity.
  - apply (proj2 (getStateFromUrlParams_bound_variables
                    (URLSearchParams "?page=2") [] keyToUis)).
    intros key ui [[= <- <-] | []]. reflexivity.
Defined.

(** X9. A URL value for a check box key that names none of its
    value-toggles, and has no marker, leaves the key enabled with nothing
    checked; the snapshot then holds the key with OR and no value, and no
    item matches any criterion set with that entry. *)
Theorem unknown_url_value_hides_all (v0 : string) (ui : Ui) (ena rel : Input)
    (cbs : list Input)
    (Ht : u_type ui = checkbox)
    (He : u_es ui = (Some ena, Some rel, Some cbs))
    (Hm : startsWith "." v0 = false)
    (Hv : forall cb, In cb cbs -> ~ In (value cb) (map trim (split "," v0))) :
  snapshotOf (applyUrlParam v0 ui) = Some (mkVals OR [] (u_cls ui) (u_qvar ui))
  /\ forall (li : Item) (key : string) (pre post : KeyToVals),
       isMatch li (pre ++ (key, mkVals OR [] (u_cls ui) (u_qvar ui)) :: post) = false.
Proof.
  split.
  - unfold applyUrlParam. rewrite Hm, Ht, He.
    unfold snapshotOf. cbn [setEs u_type u_es u_cls u_qvar option_map].
    rewrite Ht. cbn [checked setChecked isOr negb]. do 2 f_equal.
    clear He. induction cbs as [|cb cbs IH]; [reflexivity|].
    cbn [map getCheckedVals checked setChecked].
    destruct (existsb (String.eqb (value cb)) (map trim (split "," v0))) eqn:E.
    + exfalso. apply existsb_exists in E as (x & Hx & Hxe).
      apply String.eqb_eq in Hxe. subst x. apply (Hv cb); [now left | exact Hx].
    + apply IH. intros c Hc. apply Hv. now right.
  - intros li key pre post. rewrite isMatch_app, isMatch_cons. cbn. apply andb_false_r.
Qed.

Lemma unknown_url_value_hides_all_witness :
  snapshotOf
    (applyUrlParam "XL"
       (mkUi "size-%value%" "size" checkbox
          (Some (mkInput "on" false), Some (mkInput "on" false),
           Some [mkInput "S" false; mkInput "M" true])))
  = Some (mkVals OR [] "size-%value%" "size").
Proof.
  refine (proj1 (unknown_url_value_hides_all "XL"
                   (mkUi "size-%value%" "size" checkbox
                      (Some (mkInput "on" false), Some (mkInput "on" false),
                       Some [mkInput "S" false; mkInput "M" true]))
                   (mkInput "on" false) (mkInput "on" false)
                   [mkInput "S" false; mkInput "M" true] eq_refl eq_refl eq_refl _)).
  intros cb [<- | [<- | []]]; simpl; intuition discriminate.
Defined.

(** ** Filtering the list blocks *)

Lemma filterItem_fold (keyToVals : KeyToVals) (items : list Item) (count : nat)
    (done : list Item) :
  fold_left (filterItem keyToVals) items (count, done)
  = (count + length (List.filter (fun li => isMatch li keyToVals) items),
     done ++ map (fun li => setHidden (negb (isMatch li keyToVals)) li) items).
Proof.
  revert count done; induction items as [|li items IH]; intros count done.
  - cbn. now rewrite Nat.add_0_r, app_nil_r.
  - cbn [fold_left filterItem List.filter map].
    destruct (isMatch li keyToVals); rewrite IH; cbn [length negb];
      rewrite <- app_assoc; f_equal; lia.
Qed.

Lemma filterLists_filtered (keyToVals : KeyToVals) (children : list Child) :
  filterLists keyToVals children = map (filtered keyToVals) children.
Proof.
  unfold filterLists. apply map_ext. intros [d c h|items c]; [reflexivity|].
  now rewrite filterItem_fold.
Qed.

Lemma isMatch_setHidden (b : bool) (li : Item) (keyToVals : KeyToVals) :
  isMatch (setHidden b li) keyToVals = isMatch li keyToVals.
Proof.
  assert (H1 : forall vs cls isOr,
             isMatchOne (setHidden b li) vs cls isOr = isMatchOne li vs cls isOr).
  { intros vs cls isOr. unfold isMatchOne.
    destruct isOr; induction vs as [|v vs IH]; simpl; try reflexivity;
      unfold contains in *; cbn [classList setHidden]; now rewrite IH. }
  induction keyToVals as [|[k e] rest IH]; [reflexivity|].
  now rewrite !isMatch_cons, H1, IH.
Qed.

Lemma filtered_filtered (kvs kvs' : KeyToVals) (e : Child) :
  filtered kvs (filtered kvs' e) = filtered kvs e.
Proof.
  destruct e as [d c h|items c]; [reflexivity|].
  cbn [filtered]. f_equal.
  - rewrite map_map. apply map_ext. intros li.
    now rewrite isMatch_setHidden.
  - induction items as [|li items IH]; [reflexivity|].
    cbn [map List.filter]. rewrite isMatch_setHidden.
    destruct (isMatch li kvs); cbn [length]; now rewrite IH.
Qed.

Lemma visibleCount_marked (keyToVals : KeyToVals) (items : list Item) :
  visibleCount (map (fun li => setHidden (negb (isMatch li keyToVals)) li) items)
  = length (List.filter (fun li => isMatch li keyToVals) items).
Proof.
  unfold visibleCount.
  induction items as [|li items IH]; [reflexivity|].
  cbn [map List.filter li_hidden setHidden].
  rewrite negb_involutive. destruct (isMatch li keyToVals); cbn [length]; now rewrite IH.
Qed.

(** X10. After [#filterLists], every list block holds the same items with
    the same classes in the same order, an item has the [hidden] attribute
    iff it does not match, and the stored count of the block is the number
    of its items without the attribute; headings and the number of
    children are as before. *)
Theorem filterLists_counts_visible (keyToVals : KeyToVals) (children : list Child) :
  length (filterLists keyToVals children) = length children
  /\ (forall m items c,
         children !! m = Some (ListBlock items c) ->
         exists items',
           filterLists keyToVals children !! m
           = Some (ListBlock items' (visibleCount items'))
           /\ map classList items' = map classList items
           /\ Forall (fun li => li_hidden li = negb (isMatch li keyToVals)) items')
  /\ (forall m d c h,
         children !! m = Some (Heading d c h) ->
         filterLists keyToVals children !! m = Some (Heading d c h)).
Proof.
  rewrite filterLists_filtered. split; [apply length_map|]. split.
  - intros m items c Hm.
    exists (map (fun li => setHidden (negb (isMatch li keyToVals)) li) items).
    split; [|split].
    + rewrite list_lookup_fmap, Hm. cbn. now rewrite visibleCount_marked.
    + rewrite map_map. now apply map_ext.
    + apply Forall_forall. intros li Hin.
      apply list_elem_of_In, in_map_iff in Hin as (li0 & <- & _).
      cbn [li_hidden setHidden]. now rewrite isMatch_setHidden.
  - intros m d c h Hm. now rewrite list_lookup_fmap, Hm.
Qed.

Lemma filterLists_counts_visible_witness :
  let kvs := [("size", mkVals OR ["S"] "size-%value%" "size")] in
  let items := [mkItem ["size-S"] true; mkItem ["size-M"] false] in
  exists items',
    filterLists kvs [Heading 1 0 false; ListBlock items 7] !! 1
    = Some (ListBlock items' (visibleCount items'))
    /\ map classList items' = map classList items
    /\ Forall (fun li => li_hidden li = negb (isMatch li kvs)) items'.
Proof.
  intros kvs items.
  apply (proj1 (proj2 (filterLists_counts_visible kvs
                         [Heading 1 0 false; ListBlock items 7]))
           1 items 7).
  reflexivity.
Defined.

(** X11. [#filterLists] looks at the classes of the items only: what an
    earlier filtering left in the [hidden] attributes and in the counts
    has no effect on the next one. In particular filtering twice by the
    same criteria is filtering once. *)
Theorem filterLists_forgets (kvs kvs' : KeyToVals) (children : list Child) :
  filterLists kvs (filterLists kvs' children) = filterLists kvs children.
Proof.
  rewrite !filterLists_filtered, map_map. apply map_ext. intros e.
  apply filtered_filtered.
Qed.

(** X12. Without criteria every item of every list block is shown and the
    count of a block is the number of its items. *)
Theorem filterLists_no_criteria (children : list Child) (m : nat) (items : list Item)
    (c : nat) (Hm : children !! m = Some (ListBlock items c)) :
  filterLists [] children !! m
  = Some (ListBlock (map (setHidden false) items) (length items)).
Proof.
  rewrite filterLists_filtered, list_lookup_fmap, Hm.
  cbn [fmap option_fmap option_map filtered]. do 2 f_equal.
  clear Hm. induction items as [|li items IH]; [reflexivity|].
  cbn. f_equal. exact IH.
Qed.

Lemma filterLists_no_criteria_witness :
  filterLists []
    [Heading 1 0 true;
     ListBlock [mkItem ["color-red"] true; mkItem ["color-blue"] false] 0] !! 1
  = Some (ListBlock [mkItem ["color-red"] false; mkItem ["color-blue"] false] 2).
Proof.
  exact (filterLists_no_criteria
           [Heading 1 0 true;
            ListBlock [mkItem ["color-red"] true; mkItem ["color-blue"] false] 0]
           1 [mkItem ["color-red"] true; mkItem ["color-blue"] false] 0 eq_refl).
Defined.

(** ** Aggregation over the headings *)

Lemma aggregate_zero (d : Z) (h : bool) (tl : list Child) :
  aggregate d 0 h tl
  = Heading d (listSum (scope d tl))
            (if hasList (scope d tl) then (listSum (scope d tl) =? 0)%nat else h).
Proof. reflexivity. Qed.

Lemma countUpItems_counted (children : list Child) (m : nat) :
  countUpItems children !! m = counted children m.
Proof.
  destruct (countUpItems_run children) as (HL & HH & HB).
  unfold counted. destruct (children !! m) as [[d c h|items c]|] eqn:E.
  - now rewrite (HH m d c h E), aggregate_zero.
  - now rewrite (HB m items c E).
  - apply lookup_ge_None. rewrite HL. now apply lookup_ge_None.
Qed.


Lemma scope_app_open (d : Z) (mid rest : list Child) :
  Forall (fun e => closes d e = false) mid ->
  scope d (mid ++ rest) = mid ++ scope d rest.
Proof.
  induction 1 as [|e mid He _ IH]; [reflexivity|].
  cbn [app scope]. now rewrite He, IH.
Qed.

Lemma listSum_app (es es' : list Child) : listSum (es ++ es') = listSum es + listSum es'.
Proof.
  induction es as [|[d c h|items c] es IH]; cbn [app listSum]; [reflexivity|exact IH|].
  rewrite IH. lia.
Qed.

Lemma listSum_scope_deeper (d d' : Z) (es : list Child) :
  (d <= d')%Z -> listSum (scope d' es) <= listSum (scope d es).
Proof.
  intros Hd. induction es as [|e es IH]; [reflexivity|].
  cbn [scope]. destruct e as [de c h|items c]; cbn [closes].
  - destruct (Z.leb_spec de d), (Z.leb_spec de d'); cbn [listSum]; lia.
  - cbn [listSum]. lia.
Qed.

(** X14. A heading that lies under another one, deeper than it and before
    anything closes it, never ends with a greater count than the heading
    it lies under. *)
Theorem countUpItems_nested (pre mid post : list Child) (d d' : Z) (c c' : nat)
    (h h' : bool)
    (Hdeeper : (d < d')%Z)
    (Hopen : Forall (fun e => closes d e = false) mid) :
  let children := pre ++ Heading d c h :: mid ++ Heading d' c' h' :: post in
  exists n n' k k',
    countUpItems children !! length pre = Some (Heading d n k)
    /\ countUpItems children !! (length pre + S (length mid)) = Some (Heading d' n' k')
    /\ n' <= n.
Proof.
  intros children.
  assert (H1 : children !! length pre = Some (Heading d c h)).
  { unfold children. now rewrite list_lookup_middle. }
  assert (H2 : children !! (length pre + S (length mid)) = Some (Heading d' c' h')).
  { unfold children. rewrite lookup_app_r by lia.
    replace (length pre + S (length mid) - length pre) with (S (length mid)) by lia.
    exact (list_lookup_middle mid post (Heading d' c' h') (length mid) eq_refl). }
  assert (D1 : drop (S (length pre)) children = mid ++ Heading d' c' h' :: post).
  { unfold children. replace (S (length pre)) with (length pre + 1) by lia.
    now rewrite drop_app_add. }
  assert (D2 : drop (S (length pre + S (length mid))) children = post).
  { unfold children.
    replace (S (length pre + S (length mid))) with (length pre + (1 + (length mid + 1)))
      by lia.
    rewrite drop_app_add. cbn [drop Nat.add]. now rewrite drop_app_add. }
  eexists _, _, _, _. split; [|split].
  - rewrite countUpItems_counted. unfold counted. rewrite H1, D1. reflexivity.
  - rewrite countUpItems_counted. unfold counted. rewrite H2, D2. reflexivity.
  - rewrite scope_app_open by exact Hopen. rewrite listSum_app.
    cbn [scope closes]. destruct (Z.leb_spec d' d); [lia|]. cbn [listSum].
    pose proof (listSum_scope_deeper d d' post). lia.
Qed.

Lemma countUpItems_nested_witness :
  exists n n' k k',
    countUpItems
      ([] ++ Heading 1 0 false :: [ListBlock [] 2] ++ Heading 2 0 false :: [ListBlock [] 3])
      !! 0 = Some (Heading 1 n k)
    /\ countUpItems
         ([] ++ Heading 1 0 false :: [ListBlock [] 2] ++ Heading 2 0 false
             :: [ListBlock [] 3])
         !! 2 = Some (Heading 2 n' k')
    /\ n' <= n.
Proof.
  apply (countUpItems_nested [] [ListBlock [] 2] [ListBlock [] 3] 1 2 0 0 false false).
  - lia.
  - repeat constructor.
Defined.

Lemma skeleton_counted (children : list Child) (m : nat) :
  skeleton <$> counted children m = skeleton <$> children !! m.
Proof.
  unfold counted. now destruct (children !! m) as [[d c h|items c]|].
Qed.

Lemma skeleton_countUpItems (children : list Child) :
  map skeleton (countUpItems children) = map skeleton children.
Proof.
  apply list_eq. intros m.
  rewrite !list_lookup_fmap, countUpItems_counted. apply skeleton_counted.
Qed.

Lemma scope_skeleton (d : Z) (es : list Child) :
  scope d (map skeleton es) = map skeleton (scope d es).
Proof.
  induction es as [|[d' c h|items c] es IH]; cbn [map skeleton scope closes];
    [reflexivity| |now rewrite IH].
  destruct (d' <=? d)%Z; [reflexivity | cbn [map skeleton]; now rewrite IH].
Qed.

Lemma listSum_skeleton (es : list Child) : listSum (map skeleton es) = listSum es.
Proof. induction es as [|[d c h|items c] es IH]; cbn; auto. Qed.

Lemma hasList_skeleton (es : list Child) : hasList (map skeleton es) = hasList es.
Proof. induction es as [|[d c h|items c] es IH]; cbn; auto. Qed.

Lemma scope_same_skeleton (d : Z) (k : nat) (es es' : list Child) :
  map skeleton es = map skeleton es' ->
  listSum (scope d (drop k es)) = listSum (scope d (drop k es'))
  /\ hasList (scope d (drop k es)) = hasList (scope d (drop k es')).
Proof.
  intros H.
  assert (E : map skeleton (scope d (drop k es)) = map skeleton (scope d (drop k es'))).
  { now rewrite <- !scope_skeleton, <- !skipn_map, H. }
  split.
  - now rewrite <- (listSum_skeleton (scope d (drop k es))), E, listSum_skeleton.
  - now rewrite <- (hasList_skeleton (scope d (drop k es))), E, hasList_skeleton.
Qed.

(** X15. Aggregating twice is aggregating once: [#countUpItems] leaves its
    own result as it is. *)
Theorem countUpItems_idempotent (children : list Child) :
  countUpItems (countUpItems children) = countUpItems children.
Proof.
  apply list_eq. intros m.
  rewrite (countUpItems_counted (countUpItems children)).
  unfold counted at 1. rewrite countUpItems_counted.
  destruct (scope_same_skeleton)
    with (es := countUpItems children) (es' := children) (k := S m)
         (d := match children !! m with Some (Heading d _ _) => d | _ => 0%Z end)
    as [HS HH]; [apply skeleton_countUpItems|].
  unfold counted. destruct (children !! m) as [[d c h|items c]|]; try reflexivity.
  cbn zeta. rewrite HS, HH.
  now destruct (hasList (scope d (drop (S m) children))).
Qed.

(** ** The recompute cycle *)







Lemma mapAlter_same {V : Type} (key : string) (v : V) (m : list (string * V)) :
  mapGet key m = Some v -> mapAlter (fun _ => v) key m = m.
Proof.
  induction m as [|[k w] m IH]; [reflexivity|].
  cbn [mapGet mapAlter]. destruct (String.eqb k key).
  - now intros [= ->].
  - intros H. now rewrite IH.
Qed.






(** ** Options *)

Lemma optStr_twice (opts : list (string * OptVal)) (name field : string) :
  optStr opts name (optStr opts name field) = optStr opts name field.
Proof. unfold optStr. now destruct (mapGet name opts) as [[s|b]|]. Qed.

Lemma optBool_twice (opts : list (string * OptVal)) (name : string) (field : bool) :
  optBool opts name (optBool opts name field) = optBool opts name field.
Proof. unfold optBool. now destruct (mapGet name opts) as [[s|b]|]. Qed.

Lemma optStr_ignored (opts : list (string * OptVal)) (name field : string) :
  (forall s, mapGet name opts <> Some (OStr s)) -> optStr opts name field = field.
Proof.
  intros H. unfold optStr. destruct (mapGet name opts) as [[s|b]|]; try reflexivity.
  now destruct (H s).
Qed.

Lemma optBool_ignored (opts : list (string * OptVal)) (name : string) (field : bool) :
  (forall b, mapGet name opts <> Some (OBool b)) -> optBool opts name field = field.
Proof.
  intros H. unfold optBool. destruct (mapGet name opts) as [[s|b]|]; try reflexivity.
  now destruct (H b).
Qed.

(** X18. [#assignOptions] takes an option only when it has the type of
    its field: with no string among the options that set a string and no
    boolean among those that set a boolean, whatever else the object
    holds, the configuration is left as it is. Assigning the same options
    twice is assigning them once, and the instance ends with the very
    root selectors [constructAll] found its elements with. *)
Theorem assignOptions_typed (opts : list (string * OptVal)) (o : Options) :
  ((forall name s, In name stringOptions -> mapGet name opts <> Some (OStr s)) ->
   (forall name b, In name booleanOptions -> mapGet name opts <> Some (OBool b)) ->
   assignOptions opts o = o)
  /\ assignOptions opts (assignOptions opts o) = assignOptions opts o
  /\ constructAllSelectors opts
     = (o_selFilter (assignOptions opts defaultOptions) +:+ ":not([for])",
        o_selList (assignOptions opts defaultOptions) +:+ ":not([id])").
Proof.
  split; [|split].
  - intros Hs Hb. unfold assignOptions.
    rewrite !optStr_ignored by (intros s; apply Hs; simpl; tauto).
    rewrite !optBool_ignored by (intros b; apply Hb; simpl; tauto).
    now destruct o.
  - unfold assignOptions.
    cbn [o_selFilter o_selList o_selFilterKey o_selFilterSelect o_selFilterEnabled
         o_selFilterRelation o_selFilterValues o_qvarBase o_dsQvarBase o_dsQvar
         o_classBase o_dsClassBase o_dsKey o_dsCount o_dsDepth o_doSetHeadingDepth
         o_doInitializeByParams].
    now rewrite !optStr_twice, !optBool_twice.
  - reflexivity.
Qed.

Lemma assignOptions_typed_witness :
  assignOptions [("doSetHeadingDepth", OStr "false"); ("selList", OBool true);
                 ("theme", OStr "dark")]
                defaultOptions
  = defaultOptions.
Proof.
  apply (proj1 (assignOptions_typed
                  [("doSetHeadingDepth", OStr "false"); ("selList", OBool true);
                   ("theme", OStr "dark")]
                  defaultOptions)).
  - intros name s Hin. simpl in Hin.
    repeat (destruct Hin as [<- | Hin]; [discriminate|]). destruct Hin.
  - intros name b Hin. simpl in Hin.
    repeat (destruct Hin as [<- | Hin]; [discriminate|]). destruct Hin.
Defined.

(** ** Discovery *)

Lemma decimal_inj (n m : nat) : decimal n = decimal m -> n = m.
Proof.
  unfold decimal. intros H.
  assert (E : Some (Nat.to_uint n) = Some (Nat.to_uint m)).
  { rewrite <- !NilEmpty.usu. now rewrite H. }
  injection E as E.
  rewrite <- (Unsigned.of_to n), <- (Unsigned.of_to m). now rewrite E.
Qed.

Lemma constructAllLoop_lookup {F L : Type} (fs : list F) (ls : list L) (idx i : nat) :
  fst (constructAllLoop idx fs ls) !! i
  = match fs !! i, ls !! i with
    | Some f, Some l => Some ("fl" +:+ decimal (idx + i), f, l)
    | _, _ => None
    end.
Proof.
  revert ls idx i; induction fs as [|f fs IH]; intros ls idx i.
  - now destruct i.
  - destruct ls as [|l ls].
    { cbn [constructAllLoop fst]. rewrite !lookup_nil. now destruct (_ !! i). }
    cbn [constructAllLoop].
    destruct (constructAllLoop (S idx) fs ls) as [rest idx'] eqn:E.
    cbn [fst]. destruct i as [|i].
    + cbn. now rewrite Nat.add_0_r.
    + cbn [lookup list_lookup]. change rest with (fst (rest, idx')). rewrite <- E.
      change ((f :: fs) !! S i) with (fs !! i). change ((l :: ls) !! S i) with (ls !! i).
      rewrite IH. now replace (S idx + i) with (idx + S i) by lia.
Qed.

Lemma constructAllLoop_length {F L : Type} (fs : list F) (ls : list L) (idx : nat) :
  length (fst (constructAllLoop idx fs ls)) = min (length fs) (length ls)
  /\ snd (constructAllLoop idx fs ls) = idx + min (length fs) (length ls).
Proof.
  revert ls idx; induction fs as [|f fs IH]; intros ls idx; [cbn; auto|].
  destruct ls as [|l ls]; [cbn; auto|].
  cbn [constructAllLoop]. specialize (IH ls (S idx)).
  destruct (constructAllLoop (S idx) fs ls) as [rest idx']. cbn [fst snd length] in *.
  destruct IH as [-> ->]. split; cbn; lia.
Qed.

(** X19. [constructAll] pairs the filters and the lists it found by
    position: the i-th filter with the i-th list, under the identifier
    [fl] followed by the counter plus i, as many pairs as the shorter of
    the two sequences has elements, the elements beyond it being left
    alone. The counter moves on by the number of pairs, and the
    identifiers given are pairwise distinct. *)
Theorem constructAll_pairs {F L : Type} (fs : list F) (ls : list L) (idx : nat) :
  let calls := fst (constructAllLoop idx fs ls) in
  length calls = min (length fs) (length ls)
  /\ snd (constructAllLoop idx fs ls) = idx + length calls
  /\ (forall i,
         calls !! i
         = match fs !! i, ls !! i with
           | Some f, Some l => Some ("fl" +:+ decimal (idx + i), f, l)
           | _, _ => None
           end)
  /\ NoDup (map (fun call => fst (fst call)) calls).
Proof.
  intros calls.
  destruct (constructAllLoop_length fs ls idx) as [HL HI].
  split; [exact HL|]. split; [unfold calls; now rewrite HL|].
  split; [intros i; apply constructAllLoop_lookup|].
  apply NoDup_alt. intros i j id Hi Hj. unfold calls in *.
  rewrite list_lookup_fmap, constructAllLoop_lookup in Hi, Hj.
  destruct (fs !! i), (ls !! i); try discriminate.
  destruct (fs !! j), (ls !! j); try discriminate.
  cbn in Hi, Hj. injection Hi as Hi. injection Hj as Hj. rewrite <- Hj in Hi.
  apply String.app_inj in Hi. apply decimal_inj in Hi. lia.
Qed.

(** ** Bindings *)

Lemma mapSet_In {V : Type} (k : string) (v : V) (m : list (string * V)) (k' : string)
    (v' : V) :
  In (k', v') (mapSet k v m) -> (k', v') = (k, v) \/ In (k', v') m.
Proof.
  induction m as [|[a w] m IH]; cbn [mapSet].
  - intros [H | []]. now left.
  - destruct (String.eqb_spec a k) as [->|Hne].
    + intros [H | H]; [now left | right; now right].
    + intros [H | H]; [right; now left|]. destruct (IH H); [now left | right; now right].
Qed.

Lemma mapSet_keys {V : Type} (k : string) (v : V) (m : list (string * V)) :
  map fst (mapSet k v m) = if mapHas k m then map fst m else map fst m ++ [k].
Proof.
  unfold mapHas. induction m as [|[a w] m IH]; [reflexivity|].
  cbn [mapSet mapGet]. destruct (String.eqb a k); [reflexivity|].
  cbn [map fst]. rewrite IH. now destruct (mapGet k m).
Qed.

Lemma mapGet_mapSet {V : Type} (k : string) (v : V) (m : list (string * V)) (k' : string) :
  mapGet k' (mapSet k v m) = if String.eqb k k' then Some v else mapGet k' m.
Proof.
  induction m as [|[a w] m IH]; cbn [mapSet mapGet]; [reflexivity|].
  destruct (String.eqb_spec a k) as [->|Hne]; cbn [mapGet].
  - now destruct (String.eqb k k').
  - rewrite IH. destruct (String.eqb_spec a k') as [->|Hne'];
      destruct (String.eqb_spec k k'); congruence.
Qed.

Lemma keysDistinct_mapSet {V : Type} (k : string) (v : V) (m : list (string * V)) :
  keysDistinct m -> keysDistinct (mapSet k v m).
Proof.
  unfold keysDistinct. intros H. rewrite mapSet_keys. unfold mapHas.
  destruct (mapGet k m) eqn:E; [exact H|].
  apply NoDup_app. split; [exact H|]. split.
  - intros x Hx [->|[]]%list_elem_of_In. apply mapGet_None in E.
    apply E. now apply list_elem_of_In.
  - apply NoDup_singleton.
Qed.

Lemma initFilterStep_eq (o : Options) (qvarBase rClsBase : string) (acc : KeyToUis)
    (e : KeyElm) :
  initFilterStep o qvarBase rClsBase acc e
  = match keyOf o e with
    | None => acc
    | Some key =>
        mapSet key
          (mkUi (jsReplace "%key%" key
                   (match nonEmpty (k_dataset e) (o_dsClassBase o) with
                    | Some c => c
                    | None => rClsBase
                    end))
                (match nonEmpty (k_dataset e) (o_dsQvar o) with
                 | Some q => q
                 | None => jsReplace "%key%" key qvarBase
                 end)
                (fst (controlsOf e)) (snd (controlsOf e)))
          acc
    end.
Proof.
  unfold initFilterStep, keyOf, controlsOf.
  destruct (mapGet (o_dsKey o) (k_dataset e)) as [key|]; [|reflexivity].
  destruct (String.eqb key EmptyString); [reflexivity|].
  now destruct (k_select e).
Qed.

Lemma keyOf_nonempty (o : Options) (e : KeyElm) (key : string) :
  keyOf o e = Some key -> key <> EmptyString.
Proof.
  unfold keyOf. destruct (mapGet _ _) as [k|]; [|discriminate].
  destruct (String.eqb_spec k EmptyString); [discriminate|]. now intros [= <-].
Qed.

Lemma controlsOf_wellFormed (cls qvar : string) (e : KeyElm) :
  wellFormed (mkUi cls qvar (fst (controlsOf e)) (snd (controlsOf e))).
Proof.
  unfold wellFormed, controlsOf. destruct (k_select e) as [sel|]; cbn; eauto.
Qed.

(** X20. The bindings that [#initFilter] builds have pairwise distinct,
    non-empty keys; a select entry holds its selector and nothing else, a
    check box entry holds the array of its value-toggles, with or without
    an enabled-toggle and a relation-toggle. So the snapshot read from
    them lists their keys in their order. *)
Theorem buildKeyToUis_wellFormed (o : Options) (f : FilterRoot) :
  keysDistinct (buildKeyToUis o f)
  /\ (forall key ui,
         In (key, ui) (buildKeyToUis o f) -> key <> EmptyString /\ wellFormed ui)
  /\ getKeyToVals (buildKeyToUis o f) = snapshots (buildKeyToUis o f).
Proof.
  assert (H : keysDistinct (buildKeyToUis o f)
              /\ forall key ui,
                   In (key, ui) (buildKeyToUis o f) -> key <> EmptyString /\ wellFormed ui).
  { unfold buildKeyToUis.
    set (qb := match nonEmpty (r_dataset f) (o_dsQvarBase o) with
               | Some q => q | None => o_qvarBase o end).
    set (cb := match nonEmpty (r_dataset f) (o_dsClassBase o) with
               | Some c => c | None => o_classBase o end).
    assert (G : forall elms acc,
               (keysDistinct acc
                /\ forall key ui, In (key, ui) acc -> key <> EmptyString /\ wellFormed ui) ->
               keysDistinct (fold_left (initFilterStep o qb cb) elms acc)
               /\ forall key ui,
                    In (key, ui) (fold_left (initFilterStep o qb cb) elms acc) ->
                    key <> EmptyString /\ wellFormed ui).
    { induction elms as [|e elms IH]; intros acc Hacc; [exact Hacc|].
      cbn [fold_left]. apply IH. rewrite initFilterStep_eq.
      destruct (keyOf o e) as [key|] eqn:Ek; [|exact Hacc].
      destruct Hacc as [Hd Hw]. split; [now apply keysDistinct_mapSet|].
      intros k ui Hin. apply mapSet_In in Hin as [[= -> ->] | Hin]; [|now apply Hw].
      split; [now apply (keyOf_nonempty o e) | apply controlsOf_wellFormed]. }
    apply G. split; [constructor | intros key ui []]. }
  destruct H as [Hd Hw]. split; [exact Hd|]. split; [exact Hw|].
  now apply getKeyToVals_snapshots.
Qed.

Lemma buildKeyToUis_wellFormed_witness :
  let sel := mkInput "M" false in
  let f :=
    mkFilterRoot []
      [mkKeyElm [("key", "size")] (Some sel) (Some (mkInput "on" true)) None [];
       mkKeyElm [] None None None [mkInput "S" true]]
      true in
  "size" <> EmptyString /\ wellFormed (mkUi "%value%" "size" select (Some sel, None, None)).
Proof.
  intros sel f.
  apply (proj1 (proj2 (buildKeyToUis_wellFormed defaultOptions f))).
  left. reflexivity.
Defined.

Lemma buildKeyToUis_snoc (o : Options) (ds : list (string * string)) (elms : list KeyElm)
    (e : KeyElm) (h : bool) :
  buildKeyToUis o (mkFilterRoot ds (elms ++ [e]) h)
  = initFilterStep o
      (match nonEmpty ds (o_dsQvarBase o) with Some q => q | None => o_qvarBase o end)
      (match nonEmpty ds (o_dsClassBase o) with Some c => c | None => o_classBase o end)
      (buildKeyToUis o (mkFilterRoot ds elms h)) e.
Proof. unfold buildKeyToUis. cbn [r_dataset r_keys]. now rewrite fold_left_app. Qed.

(** X21. When two filter key elements have the same key, the key is bound
    to the controls of the later one, at the place the earlier one took
    in the order of the keys; the other keys keep their bindings. An
    element without key, or with the empty key, binds nothing. *)
Theorem buildKeyToUis_rebinds (o : Options) (ds : list (string * string))
    (elms : list KeyElm) (e : KeyElm) (h : bool) :
  let uis := buildKeyToUis o (mkFilterRoot ds elms h) in
  let uis' := buildKeyToUis o (mkFilterRoot ds (elms ++ [e]) h) in
  match keyOf o e with
  | None => uis' = uis
  | Some key =>
      (exists ui, mapGet key uis' = Some ui /\ (u_type ui, u_es ui) = controlsOf e)
      /\ (forall k, k <> key -> mapGet k uis' = mapGet k uis)
      /\ map fst uis' = (if mapHas key uis then map fst uis else map fst uis ++ [key])
  end.
Proof.
  intros uis uis'. unfold uis'. rewrite buildKeyToUis_snoc. fold uis.
  rewrite initFilterStep_eq. destruct (keyOf o e) as [key|]; [|reflexivity].
  split; [|split].
  - eexists. rewrite mapGet_mapSet, String.eqb_refl. split; [reflexivity|].
    cbn [u_type u_es]. now destruct (controlsOf e).
  - intros k Hk. rewrite mapGet_mapSet.
    destruct (String.eqb_spec key k); [congruence | reflexivity].
  - apply mapSet_keys.
Qed.

Lemma buildKeyToUis_rebinds_witness :
  let first := mkKeyElm [("key", "size")] (Some (mkInput "M" false)) None None [] in
  let other := mkKeyElm [("key", "color")] (Some (mkInput "red" false)) None None [] in
  let last := mkKeyElm [("key", "size")] None None None [mkInput "S" true] in
  mapGet "color" (buildKeyToUis defaultOptions (mkFilterRoot [] ([first; other] ++ [last]) true))
  = mapGet "color" (buildKeyToUis defaultOptions (mkFilterRoot [] [first; other] true)).
Proof.
  intros first other last.
  apply (proj1 (proj2 (buildKeyToUis_rebinds defaultOptions [] [first; other] last true))
           "color").
  discriminate.
Defined.

(** X22. With the templates [%key%] and [%value%] of the defaults, and no
    [dataset] entry that names a URL variable or a template, a key without
    replacement pattern is encoded under its own name and the tag pattern
    is [%value%]: the tag of a value is the value itself, up to its first
    underscore. *)
Theorem buildKeyToUis_default_names (o : Options) (ds : list (string * string))
    (elms : list KeyElm) (e : KeyElm) (h : bool) (key : string)
    (Hq : o_qvarBase o = "%key%") (Hc : o_classBase o = "%value%")
    (Hfq : nonEmpty ds (o_dsQvarBase o) = None)
    (Hfc : nonEmpty ds (o_dsClassBase o) = None)
    (Heq : nonEmpty (k_dataset e) (o_dsQvar o) = None)
    (Hec : nonEmpty (k_dataset e) (o_dsClassBase o) = None)
    (Hkey : keyOf o e = Some key)
    (Hplain : hasDollarPattern key = false) :
  mapGet key (buildKeyToUis o (mkFilterRoot ds (elms ++ [e]) h))
  = Some (mkUi "%value%" key (fst (controlsOf e)) (snd (controlsOf e))).
Proof.
  rewrite buildKeyToUis_snoc, initFilterStep_eq, Hkey, Hfq, Hfc, Heq, Hec, Hq, Hc.
  rewrite mapGet_mapSet, String.eqb_refl. do 2 f_equal.
  change "%key%" with (EmptyString +:+ "%key%" +:+ EmptyString) at 2.
  rewrite jsReplace_first.
  - rewrite getSubstitution_plain by exact Hplain. now rewrite sapp_nil_l, sapp_nil_r.
  - intros p1 a p2 E. destruct p1; discriminate E.
Qed.

Lemma buildKeyToUis_default_names_witness :
  mapGet "size"
    (buildKeyToUis defaultOptions
       (mkFilterRoot []
          ([] ++ [mkKeyElm [("key", "size")] None (Some (mkInput "on" false)) None
                    [mkInput "S" false; mkInput "M" false]])
          true))
  = Some (mkUi "%value%" "size" checkbox
            (Some (mkInput "on" false), None, Some [mkInput "S" false; mkInput "M" false])).
Proof.
  exact (buildKeyToUis_default_names defaultOptions [] []
           (mkKeyElm [("key", "size")] None (Some (mkInput "on" false)) None
              [mkInput "S" false; mkInput "M" false])
           true "size" eq_refl eq_refl eq_refl eq_refl eq_refl eq_refl eq_refl eq_refl).
Defined.

(** ** The children as elements *)

Lemma rawResetCount_no_depth (e : Elem) : e_depth e = None -> rawResetCount e = e.
Proof. intros H. unfold rawResetCount. rewrite H. now destruct (isHTMLElement e). Qed.

Lemma rawCountUpItems_no_depth (children : list Elem) :
  Forall (fun e => e_depth e = None) children -> rawCountUpItems children = children.
Proof.
  intros H. unfold rawCountUpItems.
  assert (E : map rawResetCount children = children).
  { induction H as [|e l He _ IH]; [reflexivity|].
    cbn [map]. now rewrite IH, rawResetCount_no_depth. }
  rewrite E.
  assert (G : forall l, fold_left rawCountUpStep l (children, []) = (children, [])).
  { induction l as [|i l IH]; [reflexivity|]. cbn [fold_left].
    replace (rawCountUpStep (children, []) i) with (children, @nil nat); [exact IH|].
    unfold rawCountUpStep. destruct (children !! i) as [e|] eqn:Ei; [|reflexivity].
    destruct (isHTMLElement e); [|reflexivity].
    rewrite Forall_lookup in H. now rewrite (H i e Ei). }
  now rewrite G.
Qed.

Lemma rawFilterLists_depth (keyToVals : KeyToVals) (children : list Elem) :
  Forall (fun e => e_depth e = None) children ->
  Forall (fun e => e_depth e = None) (rawFilterLists keyToVals children).
Proof.
  intros H. induction H as [|e l He _ IH]; [constructor|].
  cbn [rawFilterLists map]. constructor; [|exact IH].
  destruct (isListTag e); [|exact He].
  now destruct (fold_left (filterItem keyToVals) (e_items e) (0, [])).
Qed.

(** X23. The constructor runs its recompute cycle before it assigns the
    depths. When no child of the list element has a depth in the markup,
    that cycle decodes the URL, marks the items, counts each list and
    writes the URL, but aggregates nothing: every child that is no list
    keeps its count and its [hidden] attribute, and a heading only gets
    its depth, for the cycles to come. The filter element is shown. *)
Theorem construct_first_cycle (opts : list (string * OptVal)) (fr : FilterRoot)
    (children : list Elem) (loc : Location)
    (Hd : Forall (fun e => e_depth e = None) children) :
  let o := assignOptions opts defaultOptions in
  let uis :=
    if o_doInitializeByParams o
    then getStateFromUrlParams (URLSearchParams (search loc)) (buildKeyToUis o fr)
    else buildKeyToUis o fr in
  construct opts (Some fr) (Some children) loc
  = Some (mkFilterCat o uis
            (initializeList o (rawFilterLists (getKeyToVals uis) children))
            false loc (Some (setUrlParams loc (getKeyToVals uis))) false)
  /\ forall i e,
       children !! i = Some e -> isListTag e = false ->
       initializeList o (rawFilterLists (getKeyToVals uis) children) !! i
       = Some (match e_tag e with
               | TagHeading rank =>
                   if o_doSetHeadingDepth o
                   then setDepth (Some (Some (Z.of_nat rank - 1)%Z)) e else e
               | _ => e
               end).
Proof.
  intros o uis. split.
  - unfold construct, rawInitFilter. fold o.
    cbn [c_options c_keyToUis c_listElm c_stopUpdate c_location c_url c_filterHidden].
    fold uis.
    assert (E : forall stop,
               (if o_doInitializeByParams o
                then mkFilterCat o
                       (getStateFromUrlParams (URLSearchParams (search loc))
                          (buildKeyToUis o fr))
                       children false loc None (r_hidden fr)
                else mkFilterCat o (buildKeyToUis o fr) children stop loc None (r_hidden fr))
               = mkFilterCat o uis children
                   (if o_doInitializeByParams o then false else stop) loc None (r_hidden fr)).
    { intros stop. unfold uis. now destruct (o_doInitializeByParams o). }
    rewrite E. unfold rawUpdate.
    cbn [c_options c_keyToUis c_listElm c_stopUpdate c_location c_url c_filterHidden].
    replace (if o_doInitializeByParams o then false else false) with false
      by now destruct (o_doInitializeByParams o).
    cbn [c_options c_keyToUis c_listElm c_stopUpdate c_location c_url c_filterHidden].
    rewrite rawCountUpItems_no_depth by now apply rawFilterLists_depth.
    reflexivity.
  - intros i e Hi Hl. unfold initializeList, assignDepth, rawFilterLists.
    destruct (o_doSetHeadingDepth o).
    + rewrite !list_lookup_fmap, Hi. cbn [fmap option_fmap option_map]. rewrite Hl.
      reflexivity.
    + rewrite list_lookup_fmap, Hi. cbn [fmap option_fmap option_map]. rewrite Hl.
      now destruct (e_tag e).
Qed.

Lemma construct_first_cycle_witness :
  let heading := mkElem (TagHeading 2) None None false [] in
  let block := mkElem TagUL None None false [mkItem ["S"] false] in
  let fr :=
    mkFilterRoot []
      [mkKeyElm [("key", "size")] (Some (mkInput EmptyString false)) None None []] true in
  let loc := mkLocation "https://example.org" "/" "?size=M" EmptyString in
  exists t,
    construct [] (Some fr) (Some [heading; block]) loc = Some t
    /\ c_listElm t
       = [mkElem (TagHeading 2) (Some (Some 1%Z)) None false [];
          mkElem TagUL None (Some 0%Z) false [mkItem ["S"] true]]
    /\ c_listElm (rawUpdate t)
       = [mkElem (TagHeading 2) (Some (Some 1%Z)) (Some 0%Z) true [];
          mkElem TagUL None (Some 0%Z) false [mkItem ["S"] true]].
Proof.
  intros heading block fr loc. eexists. split.
  - apply (construct_first_cycle [] fr [heading; block] loc).
    repeat constructor.
  - split; vm_compute; reflexivity.
Defined.

(** ** The typed children refine the elements *)









(** ** A child without count *)

Lemma rawPopClosed_incl (cs : list Elem) (hi : option Z) (hs : list nat) (x : nat) :
  In x (rawPopClosed cs hi hs) -> In x hs.
Proof.
  induction hs as [|l rest IH]; [tauto|]. cbn [rawPopClosed].
  destruct (cs !! l) as [el|]; [|intros Hx; right; now apply IH].
  destruct (deeper hi _); [tauto | intros Hx; right; now apply IH].
Qed.

Lemma fold_alter_out {A : Type} (f : A -> A) (l : list nat) (cs : list A) (j : nat) :
  ~ In j l -> fold_left (fun cs h => alter f h cs) l cs !! j = cs !! j.
Proof.
  revert cs; induction l as [|x l IH]; intros cs Hx; [reflexivity|].
  cbn [fold_left]. rewrite IH by (simpl in Hx; tauto).
  apply list_lookup_alter_ne. simpl in Hx. intros ->. tauto.
Qed.

Lemma fold_alter_keeps {A : Type} (f : A -> A) (P : A -> Prop) (l : list nat)
    (cs : list A) (k : nat) :
  (forall e, P e -> P (f e)) ->
  (exists e, cs !! k = Some e /\ P e) ->
  exists e, fold_left (fun cs h => alter f h cs) l cs !! k = Some e /\ P e.
Proof.
  intros Hf. revert cs; induction l as [|x l IH]; intros cs H; [exact H|].
  cbn [fold_left]. apply IH. destruct H as (e & He & HP).
  rewrite list_lookup_alter. case_decide.
  - subst. rewrite He. exists (f e). split; [reflexivity | now apply Hf].
  - exists e. now split.
Qed.

Lemma fold_alter_sets {A : Type} (f : A -> A) (P : A -> Prop) (l : list nat)
    (cs : list A) (k : nat) (e0 : A) :
  (forall e, P (f e)) ->
  In k l -> cs !! k = Some e0 ->
  exists e, fold_left (fun cs h => alter f h cs) l cs !! k = Some e /\ P e.
Proof.
  intros Hf. revert cs e0; induction l as [|x l IH]; intros cs e0 Hin He; [destruct Hin|].
  cbn [fold_left]. destruct (decide (x = k)) as [->|Hne].
  - apply fold_alter_keeps; [intros e _; apply Hf|].
    exists (f e0). rewrite list_lookup_alter, decide_True, He by reflexivity.
    split; [reflexivity | apply Hf].
  - destruct Hin as [->|Hin]; [contradiction|].
    apply (IH _ e0 Hin). now rewrite list_lookup_alter_ne.
Qed.

Lemma rawAddCount_uncounted (c : option Z) (e : Elem) :
  uncounted e -> uncounted (rawAddCount c e).
Proof. intros [Hc _]. unfold uncounted, rawAddCount. rewrite Hc. now split. Qed.

Lemma rawAddCount_NaN (e : Elem) : uncounted (rawAddCount None e).
Proof. unfold uncounted, rawAddCount, addNumbers. now destruct (e_count e). Qed.

Lemma rawCountUp_uncounted (l : list nat) :
  forall (cs : list Elem) (hs : list nat) (k : nat),
    (exists e, cs !! k = Some e /\ uncounted e) ->
    exists e, fst (fold_left rawCountUpStep l (cs, hs)) !! k = Some e /\ uncounted e.
Proof.
  induction l as [|i l IH]; intros cs hs k H; [exact H|].
  cbn [fold_left]. unfold rawCountUpStep at 2.
  destruct (cs !! i) as [e|]; [|now apply IH].
  destruct (isHTMLElement e); [|now apply IH].
  destruct (e_depth e) as [hi|]; [now apply IH|].
  apply IH. apply fold_alter_keeps; [apply rawAddCount_uncounted | exact H].
Qed.

Lemma rawCountUpStep_reached (orig : list Elem) (i : nat) (st : list Elem * list nat) :
  reached orig i st -> reached orig (S i) (rawCountUpStep st i).
Proof.
  destruct st as [cs hs]. intros [Hs Hc]. unfold rawCountUpStep.
  destruct (cs !! i) as [e|]; [|split; [intros h Hh; specialize (Hs h Hh); lia
                                      | intros j Hj; apply Hc; lia]].
  destruct (isHTMLElement e); [|split; [intros h Hh; specialize (Hs h Hh); lia
                                        | intros j Hj; apply Hc; lia]].
  destruct (e_depth e) as [hi|]; split; cbn [fst snd].
  - intros h [<-|Hh]; [lia|]. apply rawPopClosed_incl in Hh. specialize (Hs h Hh). lia.
  - intros j Hj. apply Hc. lia.
  - intros h Hh. specialize (Hs h Hh). lia.
  - intros j Hj. rewrite fold_alter_out; [apply Hc; lia|].
    intros Hin. apply in_rev in Hin. specialize (Hs j Hin). lia.
Qed.

Lemma rawCountUp_reached (orig : list Elem) (n : nat) :
  forall (i : nat) (st : list Elem * list nat),
    reached orig i st -> reached orig (i + n) (fold_left rawCountUpStep (seq i n) st).
Proof.
  induction n as [|n IH]; intros i st H; [now rewrite Nat.add_0_r|].
  cbn [seq fold_left]. replace (i + S n) with (S i + n) by lia.
  apply IH. now apply rawCountUpStep_reached.
Qed.

(** X25. A child that is an HTML element with neither depth nor count, right
    after a heading, makes the count of that heading [NaN] and hides the
    heading, whatever the lists that follow hold. *)
Theorem stray_child_hides_heading (pre post : list Elem) (H P : Elem) (d : option Z)
    (HH : isHTMLElement H = true) (Hd : e_depth H = Some d) (HP : stray P) :
  exists e,
    rawCountUpItems (pre ++ H :: P :: post) !! length pre = Some e
    /\ e_count e = None /\ e_hidden e = true.
Proof.
  destruct HP as (PH & Pd & Pc).
  set (children := pre ++ H :: P :: post).
  unfold rawCountUpItems.
  replace (length children) with (length pre + S (S (length post)))
    by (unfold children; rewrite length_app; reflexivity).
  rewrite seq_app, fold_left_app. cbn [seq fold_left Nat.add].
  assert (R : reached children (0 + length pre)
                (fold_left rawCountUpStep (seq 0 (length pre))
                   (map rawResetCount children, []))).
  { apply rawCountUp_reached. split; [intros h []|reflexivity]. }
  cbn [Nat.add] in R.
  destruct (fold_left rawCountUpStep (seq 0 (length pre))
              (map rawResetCount children, [])) as [cs1 hs1].
  destruct R as [_ Rc]. cbn [fst] in Rc.
  assert (E0 : cs1 !! length pre = Some (rawResetCount H)).
  { rewrite Rc by lia. rewrite list_lookup_fmap. unfold children.
    now rewrite list_lookup_middle. }
  assert (E1 : cs1 !! S (length pre) = Some P).
  { rewrite Rc by lia. rewrite list_lookup_fmap. unfold children.
    rewrite (lookup_app_r pre) by lia.
    replace (S (length pre) - length pre) with 1 by lia.
    cbn. now rewrite rawResetCount_no_depth. }
  assert (S0 : rawCountUpStep (cs1, hs1) (length pre)
               = (cs1, length pre :: rawPopClosed cs1 d hs1)).
  { assert (EH : rawResetCount H = setCount (Some 0%Z) H)
      by (unfold rawResetCount; now rewrite HH, Hd).
    unfold rawCountUpStep. rewrite E0, EH.
    change (isHTMLElement (setCount (Some 0%Z) H)) with (isHTMLElement H).
    change (e_depth (setCount (Some 0%Z) H)) with (e_depth H).
    now rewrite HH, Hd. }
  rewrite S0.
  assert (S1 : rawCountUpStep (cs1, length pre :: rawPopClosed cs1 d hs1) (S (length pre))
               = (fold_left (fun cs h => alter (rawAddCount None) h cs)
                    (rev (length pre :: rawPopClosed cs1 d hs1)) cs1,
                  length pre :: rawPopClosed cs1 d hs1)).
  { unfold rawCountUpStep. now rewrite E1, PH, Pd, Pc. }
  rewrite S1.
  destruct (rawCountUp_uncounted (seq (S (S (length pre))) (length post))
              (fold_left (fun cs h => alter (rawAddCount None) h cs)
                 (rev (length pre :: rawPopClosed cs1 d hs1)) cs1)
              (length pre :: rawPopClosed cs1 d hs1) (length pre)) as (e & He & Hc & Hh).
  { apply (fold_alter_sets _ uncounted _ _ _ (rawResetCount H)).
    - apply rawAddCount_NaN.
    - apply in_rev. rewrite rev_involutive. now left.
    - exact E0. }
  exists e. now split.
Qed.

Lemma stray_child_hides_heading_witness :
  let heading := mkElem (TagHeading 2) (Some (Some 1%Z)) None false [] in
  let note := mkElem TagOther None None false [] in
  let block := mkElem TagUL None (Some 3%Z) false [] in
  exists e,
    rawCountUpItems ([] ++ heading :: note :: [block]) !! 0 = Some e
    /\ e_count e = None /\ e_hidden e = true.
Proof.
  intros heading note block.
  exact (stray_child_hides_heading [] [block] heading note (Some 1%Z) eq_refl eq_refl
           (conj eq_refl (conj eq_refl eq_refl))).
Defined.
